(** * value/fields.go: ordered field lists

    A shallow embedding of [FieldList] and its operations ([Sort], [Less],
    [Compare], [Equals], [FieldListFromJSON], [FieldListToJSON]) together with
    the properties the specification states about them.

    Conventions.
    - A Go [string] is a sequence of bytes: [String.string].  [strings.Compare]
      and the operators [<] and [!=] on strings are byte-wise lexicographic:
      [String.compare], [String.ltb], [String.eqb].
    - A Go [int] result of a comparison is a [Z].
    - A slice is a [list]; [f[i]] is [nth_error f i], and an index outside the
      slice is a runtime panic.
    - [Value], the package-level [Compare] and [Equals] on values are declared
      elsewhere in the package: they are parameters of the development. *)

From Stdlib Require Import ZArith List String Ascii Bool Lia Arith.
From Stdlib Require Import Permutation Sorted OrdersEx RelationClasses.
Import ListNotations.

Local Open Scope Z_scope.

(** Go's [len] on a slice. *)
Abbreviation len := (@List.length _) (only parsing).

(** ** Outcomes of a call *)

(** What running a function can lead to: it returns, it panics on an index
    outside a slice, or the iteration budget given to one of its unbounded
    [for] loops ran out before any return was reached. *)
Inductive exec (A : Type) : Type :=
| Returned (a : A)
| Panicked
| Unfinished.

Arguments Returned {A} a.
Arguments Panicked {A}.
Arguments Unfinished {A}.

(** What one pass through the body of a [for] loop over an index does. *)
Inductive flow (A : Type) : Type :=
| Return (a : A)
| Continue (i : nat)
| IndexOutOfRange.

Arguments Return {A} a.
Arguments Continue {A} i.
Arguments IndexOutOfRange {A}.

(** ** Strings *)

(** [strings.Compare(a, b)]: -1, 0 or +1 by byte-wise lexicographic order. *)
Definition strings_Compare (a b : string) : Z :=
  match String.compare a b with
  | Lt => -1
  | Eq => 0
  | Gt => 1
  end.

(** ** Bytes and errors *)

(** A byte is an [ascii]; a [[]byte] is a list of them. *)
Definition bytes : Type := list ascii.

(** Go's [error] values, as far as this file tells them apart: the sentinel
    [io.EOF], which the code recognises with [err == io.EOF], and any other
    error, known by its message.  A nil error is [None]. *)
Inductive error : Type :=
| io_EOF
| error_of (msg : string).

(** [err.Error()] *)
Definition Error (err : error) : string :=
  match err with
  | io_EOF => "EOF"
  | error_of msg => msg
  end.

(** [fmt.Errorf(msg)], for a message without verbs. *)
Definition fmt_Errorf (msg : string) : error := error_of msg.

(** [fmt.Errorf(prefix + "%v", err)]: [%v] prints an error as its message. *)
Definition fmt_Errorf_v (prefix : string) (err : error) : error :=
  error_of (prefix ++ Error err).

(** ** Fields and field lists *)

Section FieldListModel.

Context {Value : Type}.

(** [func Compare(lhs, rhs Value) int] and [func Equals(lhs, rhs Value) bool]
    of package [value]. *)
Variable Compare : Value -> Value -> Z.
Variable Equals : Value -> Value -> bool.

(** [type Field struct { Name string; Value Value }] *)
Record Field : Type := mkField {
  Field_Name : string;
  Field_Value : Value
}.

(** [type FieldList []Field] *)
Definition FieldList : Type := list Field.

(** *** Sort *)

(** The closure handed to [sort.SliceStable]: [f[i].Name < f[j].Name]. *)
Definition Name_less (a b : Field) : bool :=
  String.ltb (Field_Name a) (Field_Name b).

(** [insertionSort] of Go's [sort] package:
    [for i := a + 1; i < b; i++ {
       for j := i; j > a && less(j, j-1); j-- { swap(j, j-1) } }].
    The inner loop moves the element [x] found at index [i] leftwards while
    it is [less] than its left neighbour.  [before] is the part of the slice
    to the left of [x], nearest neighbour first; the result is that part with
    [x] in its place, listed the same way. *)
Fixpoint move_left (less : Field -> Field -> bool) (x : Field)
    (before : list Field) : list Field :=
  match before with
  | [] => [x]
  | y :: rest =>
      if less x y then y :: move_left less x rest
      else x :: y :: rest
  end.

(** The outer loop takes the elements from left to right; the part already
    treated is carried last element first. *)
Definition insertionSort (less : Field -> Field -> bool) (l : list Field)
    : list Field :=
  rev (fold_left (fun before x => move_left less x before) l []).

(** [sort.SliceStable(x, less)] belongs to Go's standard library, not to this
    package.  Its documentation: it sorts the slice with the given [less],
    keeping equal elements in their original order.  The library runs
    [insertionSort] on blocks of 20 elements and merges the blocks in place;
    the result of a stable sort is determined by its input (lemma
    [stable_sort_unique] below), so it is modelled by the insertion sort
    alone. *)
Definition sort_SliceStable (less : Field -> Field -> bool) (l : list Field)
    : list Field :=
  insertionSort less l.

(** [func (f FieldList) Sort()].  The method reorders the slice in place; the
    model returns the content of the slice after the call. *)
Definition FieldList_Sort (f : FieldList) : FieldList :=
  if (len f <? 2)%nat then f
  else if (len f =? 2)%nat then
    match f with
    | [f0; f1] =>
        if String.ltb (Field_Name f1) (Field_Name f0) then [f1; f0]
        else f
    | _ => f
    end
  else sort_SliceStable Name_less f.

(** Sortedness and stability, as the properties of [Sort] are stated. *)

(** [a.Name <= b.Name] in byte-wise lexicographic order. *)
Definition Name_le (a b : Field) : Prop :=
  String.leb (Field_Name a) (Field_Name b) = true.

(** The fields are in non-decreasing order of [Name]: every field comes
    before the fields whose name is at least its own. *)
Definition sorted_by_Name (l : FieldList) : Prop :=
  StronglySorted Name_le l.

(** The fields of a list that carry the name [n], in the order of the list:
    two lists that give the same fields here hold the fields named [n] in
    the same relative order. *)
Definition has_Name (n : string) (a : Field) : bool :=
  String.eqb (Field_Name a) n.

Definition fields_named (n : string) (l : FieldList) : FieldList :=
  filter (has_Name n) l.

(** *** Compare and Less *)

(** One pass through the body of the [for] loop of [Compare], at index [i]. *)
Definition Compare_body (f rhs : FieldList) (i : nat) : flow Z :=
  if (len f <=? i)%nat && (len rhs <=? i)%nat then Return 0
  else if (len f <=? i)%nat then Return (-1)
  else if (len rhs <=? i)%nat then Return 1
  else
    match nth_error f i, nth_error rhs i with
    | Some fi, Some ri =>
        let c := strings_Compare (Field_Name fi) (Field_Name ri) in
        if negb (c =? 0) then Return c
        else
          let c := Compare (Field_Value fi) (Field_Value ri) in
          if negb (c =? 0) then Return c
          else Continue (i + 1)
    | _, _ => IndexOutOfRange
    end.

(** The loop [for { ... }] of [Compare], started at index [i] and allowed
    [budget] passes through its body. *)
Fixpoint Compare_loop (budget : nat) (f rhs : FieldList) (i : nat)
    : exec Z :=
  match budget with
  | O => Unfinished
  | S budget' =>
      match Compare_body f rhs i with
      | Return c => Returned c
      | Continue j => Compare_loop budget' f rhs j
      | IndexOutOfRange => Panicked
      end
  end.

(** [func (f FieldList) Compare(rhs FieldList) int]: the loop from [i := 0].
    The budget is one pass more than the longer list has elements; by
    [Compare_loop_budget] any larger budget gives the same outcome. *)
Definition FieldList_Compare (f rhs : FieldList) : exec Z :=
  Compare_loop (S (Nat.max (len f) (len rhs))) f rhs 0.

(** [func (f FieldList) Less(rhs FieldList) bool] *)
Definition FieldList_Less (f rhs : FieldList) : exec bool :=
  match FieldList_Compare f rhs with
  | Returned c => Returned (c =? -1)
  | Panicked => Panicked
  | Unfinished => Unfinished
  end.

(** *** Equals *)

(** The loop [for i := range f { ... }] of [Equals] over the indices [idx]
    still to visit, followed by the final [return true]. *)
Fixpoint Equals_range (f rhs : FieldList) (idx : list nat) : exec bool :=
  match idx with
  | [] => Returned true
  | i :: idx' =>
      match nth_error f i, nth_error rhs i with
      | Some fi, Some ri =>
          if negb (String.eqb (Field_Name fi) (Field_Name ri))
          then Returned false
          else if negb (Equals (Field_Value fi) (Field_Value ri))
          then Returned false
          else Equals_range f rhs idx'
      | _, _ => Panicked
      end
  end.

(** [func (f FieldList) Equals(rhs FieldList) bool] *)
Definition FieldList_Equals (f rhs : FieldList) : exec bool :=
  if negb (len f =? len rhs)%nat then Returned false
  else Equals_range f rhs (seq 0 (len f)).

(** *** The positional walk of [Compare] *)

(** What [Compare] computes, by recursion on the two lists (lemma
    [FieldList_Compare_walk]). *)
Fixpoint Compare_walk (f rhs : FieldList) : Z :=
  match f, rhs with
  | [], [] => 0
  | [], _ :: _ => -1
  | _ :: _, [] => 1
  | a :: f', b :: rhs' =>
      if strings_Compare (Field_Name a) (Field_Name b) =? 0 then
        if Compare (Field_Value a) (Field_Value b) =? 0 then
          Compare_walk f' rhs'
        else Compare (Field_Value a) (Field_Value b)
      else strings_Compare (Field_Name a) (Field_Name b)
  end.

(** *** The positional walk of [Equals] *)

(** What the loop of [Equals] computes on lists of one length (lemma
    [FieldList_Equals_walk]). *)
Fixpoint Equals_walk (f rhs : FieldList) : bool :=
  match f, rhs with
  | a :: f', b :: rhs' =>
      String.eqb (Field_Name a) (Field_Name b)
      && Equals (Field_Value a) (Field_Value b)
      && Equals_walk f' rhs'
  | _, _ => true
  end.

(** *** Lists that extend one another *)

(** [P] and [Q] agree at every position they share: the names are equal and
    the comparison of the two values gives 0, whichever side each is on. *)
Definition agree_on_shared (P Q : FieldList) : Prop :=
  forall (i : nat) (p q : Field),
    nth_error P i = Some p -> nth_error Q i = Some q ->
    Field_Name p = Field_Name q
    /\ Compare (Field_Value p) (Field_Value q) = 0
    /\ Compare (Field_Value q) (Field_Value p) = 0.

(** [Q] strictly extends [P]: it has more elements and agrees with [P] at
    every shared position. *)
Definition strictly_extends (P Q : FieldList) : Prop :=
  (len P < len Q)%nat /\ agree_on_shared P Q.

End FieldListModel.

Arguments Field Value : clear implicits.
Arguments FieldList Value : clear implicits.

(** ** The JSON helpers *)

(** Modelled from the spec: package [internal/builder] (the streaming parser
    [FastObjParser], [UnmarshalString], [UnmarshalInterface], and what
    [JSONBuilder.WriteJSON] writes for a value) and the conversions
    [NewValueInterface] and [Value.Unstructured] of package [value] are not
    part of fields.go.  The spec treats them as external collaborators: a
    pull-style parser with [Parse() -> (rawToken, error)] that signals the
    end of input by a distinguished error, a routine that unescapes a raw key
    into a string, a routine that decodes a raw value into a generic
    representation, and a builder with [WriteByte] and [WriteJSON]. *)
Record Codec (Value : Type) : Type := mkCodec {
  (** [interface{}]: the generic, unstructured form of data *)
  any : Type;
  (** a string held in an [interface{}] *)
  any_string : string -> any;
  (** [v.Unstructured()] *)
  Unstructured : Value -> any;
  (** [NewValueInterface(v)] *)
  NewValueInterface : any -> Value;
  (** the bytes [WriteJSON] appends for a value, or the error it returns *)
  Marshal : any -> bytes * option error;
  (** the state of a [*FastObjParser] *)
  FastObjParser : Type;
  NewFastObjParser : bytes -> FastObjParser;
  (** [parser.Parse()]: the raw token, the error, and the parser afterwards *)
  Parse : FastObjParser -> bytes * option error * FastObjParser;
  UnmarshalString : bytes -> string * option error;
  UnmarshalInterface : bytes -> any * option error
}.

Arguments any {Value} c.
Arguments any_string {Value} c s.
Arguments Unstructured {Value} c v.
Arguments NewValueInterface {Value} c x.
Arguments Marshal {Value} c x.
Arguments FastObjParser {Value} c.
Arguments NewFastObjParser {Value} c input.
Arguments Parse {Value} c parser.
Arguments UnmarshalString {Value} c raw.
Arguments UnmarshalInterface {Value} c raw.

Section JSONModel.

Context {Value : Type}.
Variable codec : Codec Value.

Local Abbreviation Field := (Field Value).
Local Abbreviation FieldList := (FieldList Value).

(** *** FieldListFromJSON *)

(** What one pass through the body of the loop of [FieldListFromJSON] does:
    it leaves the loop, it returns from the function, or it goes on with the
    parser and the fields as they are after the pass. *)
Inductive FromJSON_pass : Type :=
| Pass_break
| Pass_return (fields : FieldList) (err : option error)
| Pass_next (parser : FastObjParser codec) (fields : FieldList).

Definition FromJSON_body (parser : FastObjParser codec) (fields : FieldList)
    : FromJSON_pass :=
  let '(rawKey, err, parser) := Parse codec parser in
  match err with
  | Some io_EOF => Pass_break
  | Some err => Pass_return [] (Some (fmt_Errorf_v "parsing JSON: " err))
  | None =>
      let '(rawValue, err, parser) := Parse codec parser in
      match err with
      | Some io_EOF => Pass_return [] (Some (fmt_Errorf "unexpected EOF"))
      | Some err => Pass_return [] (Some (fmt_Errorf_v "parsing JSON: " err))
      | None =>
          let '(k, err) := UnmarshalString codec rawKey in
          match err with
          | Some err =>
              Pass_return [] (Some (fmt_Errorf_v "parsing JSON: " err))
          | None =>
              let '(v, err) := UnmarshalInterface codec rawValue in
              match err with
              | Some err =>
                  Pass_return [] (Some (fmt_Errorf_v "parsing JSON: " err))
              | None =>
                  Pass_next parser
                    (fields ++ [mkField k (NewValueInterface codec v)])
              end
          end
      end
  end.

(** The loop, allowed [budget] passes, and the [return fields, nil] that
    follows it. *)
Fixpoint FromJSON_loop (budget : nat) (parser : FastObjParser codec)
    (fields : FieldList) : exec (FieldList * option error) :=
  match budget with
  | O => Unfinished
  | S budget' =>
      match FromJSON_body parser fields with
      | Pass_break => Returned (fields, None)
      | Pass_return l err => Returned (l, err)
      | Pass_next parser' fields' => FromJSON_loop budget' parser' fields'
      end
  end.

(** [func FieldListFromJSON(input []byte) (FieldList, error)]; [var fields
    FieldList] is the nil slice, the empty list. *)
Definition FieldListFromJSON (budget : nat) (input : bytes)
    : exec (FieldList * option error) :=
  FromJSON_loop budget (NewFastObjParser codec input) [].

(** The two shapes an error of [FieldListFromJSON] has. *)
Definition FromJSON_error_shape (err : error) : Prop :=
  err = error_of "unexpected EOF"
  \/ exists cause : error, err = error_of ("parsing JSON: " ++ Error cause).

(** The parser hands out these raw tokens, none of them with an error, and
    is then in the state [parser']. *)
Inductive hands_out : FastObjParser codec -> list bytes ->
                      FastObjParser codec -> Prop :=
| hands_out_none parser : hands_out parser [] parser
| hands_out_token parser raw parser1 toks parser' :
    Parse codec parser = (raw, None, parser1) ->
    hands_out parser1 toks parser' ->
    hands_out parser (raw :: toks) parser'.

(** A raw key and a raw value decode, without an error, to the field [f]. *)
Definition pair_decodes (kv : bytes * bytes) (f : Field) : Prop :=
  UnmarshalString codec (fst kv) = (Field_Name f, None)
  /\ exists x : any codec,
       UnmarshalInterface codec (snd kv) = (x, None)
       /\ Field_Value f = NewValueInterface codec x.

(** The five places where a pass of the loop, begun with the parser in the
    state [parser], fails, each with the error that [FieldListFromJSON] then
    returns: the parser fails on the key; the input ends after the key; the
    parser fails on the value; the key cannot be unescaped; the value cannot
    be decoded. *)
Inductive FromJSON_failure (parser : FastObjParser codec) : error -> Prop :=
| key_token_failure rawKey e parser1 :
    Parse codec parser = (rawKey, Some e, parser1) ->
    e <> io_EOF ->
    FromJSON_failure parser (error_of ("parsing JSON: " ++ Error e))
| value_missing rawKey parser1 rawValue parser2 :
    Parse codec parser = (rawKey, None, parser1) ->
    Parse codec parser1 = (rawValue, Some io_EOF, parser2) ->
    FromJSON_failure parser (error_of "unexpected EOF")
| value_token_failure rawKey parser1 rawValue e parser2 :
    Parse codec parser = (rawKey, None, parser1) ->
    Parse codec parser1 = (rawValue, Some e, parser2) ->
    e <> io_EOF ->
    FromJSON_failure parser (error_of ("parsing JSON: " ++ Error e))
| key_unescape_failure rawKey parser1 rawValue parser2 k e :
    Parse codec parser = (rawKey, None, parser1) ->
    Parse codec parser1 = (rawValue, None, parser2) ->
    UnmarshalString codec rawKey = (k, Some e) ->
    FromJSON_failure parser (error_of ("parsing JSON: " ++ Error e))
| value_unmarshal_failure rawKey parser1 rawValue parser2 k v e :
    Parse codec parser = (rawKey, None, parser1) ->
    Parse codec parser1 = (rawValue, None, parser2) ->
    UnmarshalString codec rawKey = (k, None) ->
    UnmarshalInterface codec rawValue = (v, Some e) ->
    FromJSON_failure parser (error_of ("parsing JSON: " ++ Error e)).

(** *** FieldListToJSON *)

(** Modelled from the spec: [*builder.JSONBuilder], the external incremental
    builder with [WriteByte(byte)] and [WriteJSON(value) -> error], is not part
    of fields.go.  A builder is the bytes written to it so far; [WriteByte]
    appends one byte, [WriteJSON] appends what the codec writes for the value
    or returns its error. *)
Definition JSONBuilder : Type := bytes.

Definition WriteByte (c : ascii) (w : JSONBuilder) : JSONBuilder := w ++ [c].

Definition WriteJSON (x : any codec) (w : JSONBuilder)
    : JSONBuilder * option error :=
  match Marshal codec x with
  | (raw, None) => (w ++ raw, None)
  | (_, Some err) => (w, Some err)
  end.

(** The loop [for i, f := range v { ... }] from index [i], with [rest] the
    fields from there on, followed by the closing brace and [return nil]. *)
Fixpoint ToJSON_range (v : FieldList) (i : nat) (rest : list Field)
    (w : JSONBuilder) : JSONBuilder * option error :=
  match rest with
  | [] => (WriteByte "}" w, None)
  | f :: rest' =>
      let '(w, err) := WriteJSON (any_string codec (Field_Name f)) w in
      match err with
      | Some err => (w, Some err)
      | None =>
          let w := WriteByte ":" w in
          let '(w, err) := WriteJSON (Unstructured codec (Field_Value f)) w in
          match err with
          | Some err => (w, Some err)
          | None =>
              let w :=
                if Z.of_nat i <? Z.of_nat (len v) - 1 then WriteByte "," w
                else w in
              ToJSON_range v (i + 1) rest' w
          end
      end
  end.

(** [func FieldListToJSON(v FieldList, w *builder.JSONBuilder) error]: the
    builder after the call and the error. *)
Definition FieldListToJSON (v : FieldList) (w : JSONBuilder)
    : JSONBuilder * option error :=
  ToJSON_range v 0 v (WriteByte "{" w).

(** *** What the spec asks of the parser and the builder *)

(** The text of a JSON object with the given raw keys and values:
    [{ key : value , ... }]. *)
Fixpoint members_text (kvs : list (bytes * bytes)) : bytes :=
  match kvs with
  | [] => []
  | (k, v) :: rest =>
      k ++ ":"%char :: v
        ++ match rest with
           | [] => []
           | _ :: _ => ","%char :: members_text rest
           end
  end.

Definition object_text (kvs : list (bytes * bytes)) : bytes :=
  "{"%char :: members_text kvs ++ ["}"%char].

(** The raw tokens of an object, as the parser hands them out: key, value,
    key, value, ... *)
Definition object_tokens (kvs : list (bytes * bytes)) : list bytes :=
  flat_map (fun kv => [fst kv; snd kv]) kvs.

(** The parser hands out exactly these raw tokens, then signals the end of
    input. *)
Inductive reads : FastObjParser codec -> list bytes -> Prop :=
| reads_EOF parser raw parser' :
    Parse codec parser = (raw, Some io_EOF, parser') ->
    reads parser []
| reads_token parser raw parser' toks :
    Parse codec parser = (raw, None, parser') ->
    reads parser' toks ->
    reads parser (raw :: toks).

(** A raw token that [WriteJSON] writes for some value. *)
Definition written (raw : bytes) : Prop :=
  exists x : any codec, Marshal codec x = (raw, None).

(** The raw key and the raw value that [WriteJSON] writes for a field. *)
Definition marshalled (f : Field) (kv : bytes * bytes) : Prop :=
  Marshal codec (any_string codec (Field_Name f)) = (fst kv, None)
  /\ Marshal codec (Unstructured codec (Field_Value f)) = (snd kv, None).

Variable Equals : Value -> Value -> bool.

(** A field as decoded stands for the field as written: the same name, and
    a value equal to the written one. *)
Definition decoded (f' f : Field) : Prop :=
  Field_Name f' = Field_Name f
  /\ Equals (Field_Value f') (Field_Value f) = true.

(** Modelled from the spec: what the spec says of the external parser and
    builder, as far as a round trip needs it.  The parser consumes a JSON
    object [{ "key": value, ... }] as alternating key and value tokens and
    then signals the end of input; a raw key is unescaped into the string
    that was written; a raw value is decoded into a generic representation
    that, wrapped as a [Value], equals the value that was written. *)
Record CodecContract : Prop := {
  parse_object :
    forall kvs : list (bytes * bytes),
      Forall (fun kv => written (fst kv) /\ written (snd kv)) kvs ->
      reads (NewFastObjParser codec (object_text kvs)) (object_tokens kvs);
  unmarshal_string :
    forall (s : string) (raw : bytes),
      Marshal codec (any_string codec s) = (raw, None) ->
      UnmarshalString codec raw = (s, None);
  unmarshal_value :
    forall (v : Value) (raw : bytes),
      Marshal codec (Unstructured codec v) = (raw, None) ->
      exists x : any codec,
        UnmarshalInterface codec raw = (x, None)
        /\ Equals (NewValueInterface codec x) v = true
}.

End JSONModel.

(** ** An instance for examples: integer values *)

(** Values that are integers, compared and tested for equality as integers. *)
Definition IntCompare (lhs rhs : Z) : Z :=
  if lhs >? rhs then 1 else if lhs <? rhs then -1 else 0.

Definition IntEquals (lhs rhs : Z) : bool := lhs =? rhs.

(** ** An instance for examples: a codec for plain strings *)

(** A small codec in which every value is a string and a string is written
    between two quotation marks, as it is; strings that would need escaping are
    refused.  It serves to run the JSON helpers on concrete inputs. *)

Definition quote : ascii := "034"%char.

Definition structural (c : ascii) : bool :=
  Ascii.eqb c "{" || Ascii.eqb c "}" || Ascii.eqb c ":" || Ascii.eqb c ",".

Definition opens_token (c : ascii) : bool :=
  Ascii.eqb c "{" || Ascii.eqb c ":" || Ascii.eqb c ",".

Definition plain_byte (c : ascii) : bool :=
  negb (structural c) && negb (Ascii.eqb c quote).

Definition plain_Marshal (s : string) : bytes * option error :=
  if forallb plain_byte (list_ascii_of_string s)
  then (quote :: list_ascii_of_string s ++ [quote], None)
  else ([], Some (error_of "unsupported character")).

Definition plain_Unmarshal (raw : bytes) : string * option error :=
  match raw with
  | q :: rest =>
      match rev rest with
      | q' :: body =>
          if Ascii.eqb q quote && Ascii.eqb q' quote
          then (string_of_list_ascii (rev body), None)
          else (EmptyString, Some (error_of "not a string"))
      | [] => (EmptyString, Some (error_of "not a string"))
      end
  | [] => (EmptyString, Some (error_of "not a string"))
  end.

(** The bytes up to the next structural byte, and the input from there on. *)
Fixpoint take_token (input : bytes) : bytes * bytes :=
  match input with
  | [] => ([], [])
  | c :: rest =>
      if structural c then ([], input)
      else let '(tok, rest') := take_token rest in (c :: tok, rest')
  end.

(** The parser is the input still to read.  A token follows an opening brace,
    a colon or a comma; a closing brace, or the end of the bytes, is the end
    of input. *)
Definition plain_Parse (input : bytes) : bytes * option error * bytes :=
  match input with
  | [] => ([], Some io_EOF, [])
  | c :: rest =>
      if Ascii.eqb c "}" then ([], Some io_EOF, rest)
      else if opens_token c then
        match rest with
        | [] => ([], Some io_EOF, [])
        | d :: _ =>
            if Ascii.eqb d "}" then ([], Some io_EOF, rest)
            else
              match take_token rest with
              | ([], _) => ([], Some (error_of "invalid character"), rest)
              | (tok, rest') => (tok, None, rest')
              end
        end
      else ([], Some (error_of "invalid character"), input)
  end.

(** A raw token of the plain codec: not empty, no structural byte. *)
Definition plain_token (raw : bytes) : Prop :=
  raw <> [] /\ Forall (fun c => structural c = false) raw.

Definition PlainCodec : Codec string := {|
  any := string;
  any_string := fun s => s;
  Unstructured := fun v => v;
  NewValueInterface := fun x => x;
  Marshal := plain_Marshal;
  FastObjParser := bytes;
  NewFastObjParser := fun input => input;
  Parse := plain_Parse;
  UnmarshalString := plain_Unmarshal;
  UnmarshalInterface := plain_Unmarshal
|}.

(** * Properties *)

(** ** Byte-wise order on strings *)

Lemma string_compare_refl (a : string) : String.compare a a = Eq.
Proof.
  pose proof (String.compare_antisym a a) as H.
  destruct (String.compare a a); simpl in H; congruence.
Qed.

Lemma string_compare_Eq (a b : string) : String.compare a b = Eq <-> a = b.
Proof.
  split; [apply String.compare_eq_iff | intros ->; apply string_compare_refl].
Qed.

Lemma strings_Compare_zero (a b : string) : strings_Compare a b = 0 <-> a = b.
Proof.
  rewrite <- string_compare_Eq. unfold strings_Compare.
  destruct (String.compare a b); split; intros H; congruence || lia.
Qed.

Lemma strings_Compare_opp (a b : string) :
  strings_Compare a b = - strings_Compare b a.
Proof.
  unfold strings_Compare. rewrite (String.compare_antisym b a).
  destruct (String.compare a b); reflexivity.
Qed.

Lemma strings_Compare_range (a b : string) :
  strings_Compare a b = -1 \/ strings_Compare a b = 0 \/ strings_Compare a b = 1.
Proof. unfold strings_Compare. destruct (String.compare a b); auto. Qed.

Lemma string_compare_OT (a b : string) :
  String.compare a b = String_as_OT.compare a b.
Proof. revert b. induction a; destruct b; simpl; auto. Qed.

Lemma string_compare_Lt_trans (a b c : string) :
  String.compare a b = Lt -> String.compare b c = Lt -> String.compare a c = Lt.
Proof.
  rewrite !string_compare_OT.
  exact (@StrictOrder_Transitive _ _ String_as_OT.lt_strorder a b c).
Qed.

Lemma string_ltb_leb (a b : string) :
  String.ltb a b = true -> String.leb a b = true.
Proof. unfold String.ltb, String.leb. now destruct (String.compare a b). Qed.

Lemma string_ltb_false (a b : string) :
  String.ltb a b = false <-> String.leb b a = true.
Proof.
  unfold String.ltb, String.leb. rewrite (String.compare_antisym a b).
  destruct (String.compare b a); simpl; split; congruence.
Qed.

Lemma string_ltb_neq (a b : string) : String.ltb a b = true -> a <> b.
Proof.
  unfold String.ltb. intros H ->. now rewrite string_compare_refl in H.
Qed.

Lemma string_leb_refl (a : string) : String.leb a a = true.
Proof. unfold String.leb. now rewrite string_compare_refl. Qed.

Lemma string_leb_trans (a b c : string) :
  String.leb a b = true -> String.leb b c = true -> String.leb a c = true.
Proof.
  unfold String.leb. intros Hab Hbc.
  destruct (String.compare a b) eqn:Eab; try discriminate;
    destruct (String.compare b c) eqn:Ebc; try discriminate.
  - apply string_compare_Eq in Eab, Ebc. subst.
    now rewrite string_compare_refl.
  - apply string_compare_Eq in Eab. subst. now rewrite Ebc.
  - apply string_compare_Eq in Ebc. subst. now rewrite Eab.
  - now rewrite (string_compare_Lt_trans _ _ _ Eab Ebc).
Qed.

(** ** Slices *)

Lemma skipn_nth_error {A : Type} (l : list A) (i : nat) (x : A) :
  nth_error l i = Some x -> skipn i l = x :: skipn (S i) l.
Proof.
  revert i. induction l as [|y l IH]; intros [|i] H; simpl in H; try discriminate.
  - now inversion H.
  - now apply IH.
Qed.

Lemma nth_error_in_range {A : Type} (l : list A) (i : nat) :
  (i < len l)%nat -> exists x, nth_error l i = Some x.
Proof.
  intros H. destruct (nth_error l i) as [x|] eqn:E; [now exists x|].
  apply nth_error_None in E. lia.
Qed.

Section FieldListFacts.

Context {Value : Type}.
Variable Compare : Value -> Value -> Z.
Variable Equals : Value -> Value -> bool.

Local Abbreviation Field := (Field Value).
Local Abbreviation FieldList := (FieldList Value).

(** *** The loop of [Compare] *)

Lemma Compare_body_step (f rhs : FieldList) (i j : nat) :
  Compare_body Compare f rhs i = Continue j ->
  j = S i /\ (i < len f)%nat /\ (i < len rhs)%nat.
Proof.
  unfold Compare_body.
  destruct (len f <=? i)%nat eqn:Ef, (len rhs <=? i)%nat eqn:Er;
    simpl; try discriminate.
  apply Nat.leb_gt in Ef, Er.
  destruct (nth_error f i) as [fi|], (nth_error rhs i) as [ri|];
    try discriminate.
  destruct (negb _); try discriminate.
  destruct (negb _); try discriminate.
  intros H. inversion H. lia.
Qed.

Lemma Compare_body_at_end (f rhs : FieldList) (i : nat) :
  (len f <= i)%nat \/ (len rhs <= i)%nat ->
  exists c, Compare_body Compare f rhs i = Return c.
Proof.
  unfold Compare_body. intros H.
  destruct (len f <=? i)%nat eqn:Ef, (len rhs <=? i)%nat eqn:Er; simpl; eauto.
  apply Nat.leb_gt in Ef, Er. lia.
Qed.

Lemma Compare_loop_walk (budget : nat) :
  forall (f rhs : FieldList) (i : nat),
    (Nat.min (len f) (len rhs) - i < budget)%nat ->
    Compare_loop Compare budget f rhs i
    = Returned (Compare_walk Compare (skipn i f) (skipn i rhs)).
Proof.
  induction budget as [|budget IH]; intros f rhs i Hb; [lia|].
  simpl. unfold Compare_body.
  destruct (len f <=? i)%nat eqn:Ef, (len rhs <=? i)%nat eqn:Er; simpl.
  - apply Nat.leb_le in Ef, Er.
    rewrite (skipn_all2 f), (skipn_all2 rhs) by assumption. reflexivity.
  - apply Nat.leb_le in Ef. apply Nat.leb_gt in Er.
    destruct (nth_error_in_range rhs i Er) as [ri Hri].
    rewrite (skipn_all2 f) by assumption.
    rewrite (skipn_nth_error _ _ _ Hri). reflexivity.
  - apply Nat.leb_gt in Ef. apply Nat.leb_le in Er.
    destruct (nth_error_in_range f i Ef) as [fi Hfi].
    rewrite (skipn_all2 rhs) by assumption.
    rewrite (skipn_nth_error _ _ _ Hfi). reflexivity.
  - apply Nat.leb_gt in Ef, Er.
    destruct (nth_error_in_range f i Ef) as [fi Hfi].
    destruct (nth_error_in_range rhs i Er) as [ri Hri].
    rewrite Hfi, Hri.
    rewrite (skipn_nth_error _ _ _ Hfi), (skipn_nth_error _ _ _ Hri).
    cbn [Compare_walk].
    destruct (strings_Compare (Field_Name fi) (Field_Name ri) =? 0);
      simpl; [|reflexivity].
    destruct (Compare (Field_Value fi) (Field_Value ri) =? 0);
      simpl; [|reflexivity].
    replace (i + 1)%nat with (S i) by lia.
    apply IH. lia.
Qed.

(** Any budget that lets the loop return gives the same result. *)
Lemma Compare_loop_budget (f rhs : FieldList) (i budget budget' : nat) (c : Z) :
  Compare_loop Compare budget f rhs i = Returned c ->
  (budget <= budget')%nat ->
  Compare_loop Compare budget' f rhs i = Returned c.
Proof.
  revert i budget'. induction budget as [|budget IH]; intros i budget' H Hle;
    [discriminate|].
  destruct budget' as [|budget']; [lia|].
  simpl in *. destruct (Compare_body Compare f rhs i); try assumption.
  apply IH; [assumption | lia].
Qed.

Lemma FieldList_Compare_walk (f rhs : FieldList) :
  FieldList_Compare Compare f rhs = Returned (Compare_walk Compare f rhs).
Proof.
  unfold FieldList_Compare.
  rewrite Compare_loop_walk by lia. reflexivity.
Qed.

(** *** The loop of [Equals] *)

Lemma Equals_range_walk (n : nat) :
  forall (f rhs : FieldList) (i : nat),
    (i + n = len f)%nat -> len f = len rhs ->
    Equals_range Equals f rhs (seq i n)
    = Returned (Equals_walk Equals (skipn i f) (skipn i rhs)).
Proof.
  induction n as [|n IH]; intros f rhs i Hn Hlen.
  - simpl. rewrite (skipn_all2 f) by lia. reflexivity.
  - destruct (nth_error_in_range f i ltac:(lia)) as [fi Hfi].
    destruct (nth_error_in_range rhs i ltac:(lia)) as [ri Hri].
    simpl. rewrite Hfi, Hri.
    rewrite (skipn_nth_error _ _ _ Hfi), (skipn_nth_error _ _ _ Hri).
    cbn [Equals_walk].
    destruct (String.eqb (Field_Name fi) (Field_Name ri)); simpl;
      [|reflexivity].
    destruct (Equals (Field_Value fi) (Field_Value ri)); simpl;
      [|reflexivity].
    apply IH; lia.
Qed.

Lemma FieldList_Equals_walk (f rhs : FieldList) :
  FieldList_Equals Equals f rhs
  = Returned ((len f =? len rhs)%nat && Equals_walk Equals f rhs).
Proof.
  unfold FieldList_Equals.
  destruct (len f =? len rhs)%nat eqn:E; simpl; [|reflexivity].
  apply Nat.eqb_eq in E.
  now rewrite Equals_range_walk.
Qed.

(** *** Compare and Equals agree *)

Lemma Equals_walk_Compare_walk
    (Hval : forall a b : Value, Equals a b = true <-> Compare a b = 0)
    (f : FieldList) :
  forall rhs : FieldList,
    (len f =? len rhs)%nat && Equals_walk Equals f rhs = true
    <-> Compare_walk Compare f rhs = 0.
Proof.
  induction f as [|a f IH]; intros [|b rhs]; cbn [Compare_walk Equals_walk];
    try (simpl; split; intros H; (discriminate || lia || reflexivity)).
  cbn [length Nat.eqb].
  destruct (strings_Compare (Field_Name a) (Field_Name b) =? 0) eqn:En.
  - apply Z.eqb_eq, strings_Compare_zero in En.
    rewrite (proj2 (String.eqb_eq _ _) En). cbn [andb].
    destruct (Compare (Field_Value a) (Field_Value b) =? 0) eqn:Ev.
    + apply Z.eqb_eq, Hval in Ev. rewrite Ev. cbn [andb]. apply IH.
    + apply Z.eqb_neq in Ev.
      destruct (Equals (Field_Value a) (Field_Value b)) eqn:Ee.
      * apply Hval in Ee. contradiction.
      * rewrite andb_false_r. split; intros H; [discriminate | contradiction].
  - apply Z.eqb_neq in En.
    destruct (String.eqb (Field_Name a) (Field_Name b)) eqn:Es.
    + apply String.eqb_eq, strings_Compare_zero in Es. contradiction.
    + rewrite andb_false_r. split; intros H; [discriminate | contradiction].
Qed.

(** C1. [Equals] and [Compare] are consistent: when the equality of values
    holds exactly where their comparison gives 0, [A.Equals(B)] returns true
    if and only if [A.Compare(B)] returns 0. *)
Theorem Equals_iff_Compare_zero
    (Hval : forall a b : Value, Equals a b = true <-> Compare a b = 0)
    (A B : FieldList) :
  FieldList_Equals Equals A B = Returned true
  <-> FieldList_Compare Compare A B = Returned 0.
Proof.
  rewrite FieldList_Equals_walk, FieldList_Compare_walk.
  pose proof (Equals_walk_Compare_walk Hval A B) as H.
  split; intros E; inversion E as [E']; f_equal; apply H; assumption.
Qed.

(** *** Antisymmetry *)

Lemma Compare_walk_opp
    (Hanti : forall a b : Value, Compare a b = - Compare b a)
    (f : FieldList) :
  forall rhs : FieldList,
    Compare_walk Compare f rhs = - Compare_walk Compare rhs f.
Proof.
  induction f as [|a f IH]; intros [|b rhs]; cbn [Compare_walk];
    try reflexivity.
  rewrite (strings_Compare_opp (Field_Name b) (Field_Name a)).
  rewrite (Hanti (Field_Value b) (Field_Value a)).
  destruct (strings_Compare (Field_Name a) (Field_Name b) =? 0) eqn:En.
  - apply Z.eqb_eq in En. rewrite En. cbn [Z.opp Z.eqb].
    destruct (Compare (Field_Value a) (Field_Value b) =? 0) eqn:Ev.
    + apply Z.eqb_eq in Ev. rewrite Ev. cbn [Z.opp Z.eqb]. apply IH.
    + apply Z.eqb_neq in Ev.
      destruct (- Compare (Field_Value a) (Field_Value b) =? 0) eqn:Ev'.
      * apply Z.eqb_eq in Ev'. lia.
      * lia.
  - apply Z.eqb_neq in En.
    destruct (- strings_Compare (Field_Name a) (Field_Name b) =? 0) eqn:En'.
    + apply Z.eqb_eq in En'. lia.
    + lia.
Qed.

Lemma Compare_walk_refl
    (Hrefl : forall a : Value, Compare a a = 0) (f : FieldList) :
  Compare_walk Compare f f = 0.
Proof.
  induction f as [|a f IH]; cbn [Compare_walk]; [reflexivity|].
  rewrite (proj2 (strings_Compare_zero _ _) eq_refl), Hrefl. exact IH.
Qed.

(** C2. [Compare] is antisymmetric when the comparison of values is:
    [A.Compare(B)] returns the opposite of what [B.Compare(A)] returns; and
    [A.Compare(A)] returns 0 when the comparison of a value with itself
    gives 0. *)
Theorem Compare_antisymmetric :
  ((forall a b : Value, Compare a b = - Compare b a) ->
   forall A B : FieldList,
     exists c : Z,
       FieldList_Compare Compare B A = Returned c
       /\ FieldList_Compare Compare A B = Returned (- c))
  /\ ((forall a : Value, Compare a a = 0) ->
      forall A : FieldList, FieldList_Compare Compare A A = Returned 0).
Proof.
  split.
  - intros Hanti A B. exists (Compare_walk Compare B A).
    rewrite !FieldList_Compare_walk. split; [reflexivity|].
    f_equal. now apply Compare_walk_opp.
  - intros Hrefl A. rewrite FieldList_Compare_walk. f_equal.
    now apply Compare_walk_refl.
Qed.

(** *** Strict prefixes *)

Lemma agree_on_shared_tail (a b : Field) (P Q : FieldList) :
  agree_on_shared Compare (a :: P) (b :: Q) -> agree_on_shared Compare P Q.
Proof. intros H i p q Hp Hq. exact (H (S i) p q Hp Hq). Qed.

Lemma Compare_walk_strict_prefix (P : FieldList) :
  forall Q : FieldList,
    strictly_extends Compare P Q ->
    Compare_walk Compare P Q = -1 /\ Compare_walk Compare Q P = 1.
Proof.
  induction P as [|a P IH]; intros [|b Q] [Hlen Hag]; simpl in Hlen;
    try lia; cbn [Compare_walk]; [split; reflexivity|].
  destruct (Hag O a b eq_refl eq_refl) as (Hn & Hab & Hba).
  rewrite Hn, (proj2 (strings_Compare_zero _ _) eq_refl), Hab, Hba.
  cbn [Z.eqb].
  apply IH. split; [lia | eapply agree_on_shared_tail; eassumption].
Qed.

(** C4. A list compares as smaller than any list that strictly extends it:
    when [Q] has more elements than [P] and agrees with [P] in name and
    value at every shared position, [P.Compare(Q)] returns -1 and
    [Q.Compare(P)] returns +1.  In particular
    [Compare([{a,1}], [{a,1},{b,2}])] returns -1. *)
Theorem Compare_strict_prefix :
  (forall P Q : FieldList,
     strictly_extends Compare P Q ->
     FieldList_Compare Compare P Q = Returned (-1)
     /\ FieldList_Compare Compare Q P = Returned 1)
  /\ FieldList_Compare IntCompare
       [mkField "a" 1] [mkField "a" 1; mkField "b" 2] = Returned (-1).
Proof.
  split; [|reflexivity].
  intros P Q H. rewrite !FieldList_Compare_walk.
  destruct (Compare_walk_strict_prefix P Q H) as [-> ->]. now split.
Qed.

(** With a comparison that gives 0 on a value and itself, appending fields
    to a list strictly extends it. *)
Lemma strictly_extends_app
    (Hrefl : forall a : Value, Compare a a = 0) (P R : FieldList) :
  R <> [] -> strictly_extends Compare P (P ++ R).
Proof.
  intros HR. split.
  - rewrite length_app. destruct R; [contradiction | simpl; lia].
  - intros i p q Hp Hq.
    rewrite nth_error_app1 in Hq by (apply nth_error_Some; congruence).
    assert (p = q) as -> by congruence. auto.
Qed.

(** *** Termination of Compare *)

(** C10. The loop of [Compare] returns for every pair of lists, after at most
    [max(len(f), len(rhs)) + 1] passes: a pass that does not return moves
    the index from [i] to [i + 1], with [i] inside both lists, and a pass at
    an index that has reached either length returns. *)
Theorem Compare_terminates (f rhs : FieldList) :
  (exists (n : nat) (c : Z),
     (n <= Nat.max (len f) (len rhs) + 1)%nat
     /\ Compare_loop Compare n f rhs 0 = Returned c
     /\ forall m : nat, (n <= m)%nat ->
          Compare_loop Compare m f rhs 0 = Returned c)
  /\ (forall i j : nat,
        Compare_body Compare f rhs i = Continue j ->
        j = S i /\ (i < len f)%nat /\ (i < len rhs)%nat)
  /\ (forall i : nat,
        (len f <= i)%nat \/ (len rhs <= i)%nat ->
        exists c : Z, Compare_body Compare f rhs i = Return c).
Proof.
  split; [|split].
  - exists (Nat.min (len f) (len rhs) + 1)%nat, (Compare_walk Compare f rhs).
    split; [lia|].
    assert (Compare_loop Compare (Nat.min (len f) (len rhs) + 1) f rhs 0
            = Returned (Compare_walk Compare f rhs)) as E
      by (rewrite Compare_loop_walk by lia; reflexivity).
    split; [assumption|].
    intros m Hm. eapply Compare_loop_budget; eassumption.
  - apply Compare_body_step.
  - apply Compare_body_at_end.
Qed.

End FieldListFacts.

(** ** Sort *)

Section SortFacts.

Context {Value : Type}.

Local Abbreviation Field := (Field Value).
Local Abbreviation FieldList := (FieldList Value).

(** The order in which [insertionSort] carries the part already treated. *)
Local Abbreviation Name_ge := (fun a b : Field => Name_le b a).

Lemma Name_le_trans (a b c : Field) : Name_le a b -> Name_le b c -> Name_le a c.
Proof. apply string_leb_trans. Qed.

(** *** One element moved into place *)

Lemma move_left_Permutation (less : Field -> Field -> bool) (x : Field)
    (before : list Field) :
  Permutation (move_left less x before) (x :: before).
Proof.
  induction before as [|y rest IH]; simpl; [reflexivity|].
  destruct (less x y); [|reflexivity].
  rewrite IH. apply perm_swap.
Qed.

Lemma move_left_fields_named (n : string) (x : Field) (before : list Field) :
  fields_named n (move_left Name_less x before)
  = fields_named n (x :: before).
Proof.
  unfold fields_named.
  induction before as [|y rest IH]; [reflexivity|].
  simpl move_left. destruct (Name_less x y) eqn:E; [|reflexivity].
  apply string_ltb_neq in E.
  cbn [filter] in *. rewrite IH. unfold has_Name.
  destruct (String.eqb_spec (Field_Name x) n) as [Hx|Hx];
    destruct (String.eqb_spec (Field_Name y) n) as [Hy|Hy];
    try reflexivity.
  congruence.
Qed.

Lemma move_left_sorted (x : Field) (before : list Field) :
  StronglySorted Name_ge before ->
  StronglySorted Name_ge (move_left Name_less x before).
Proof.
  induction before as [|y rest IH]; intros Hs; simpl.
  - repeat constructor.
  - apply StronglySorted_inv in Hs. destruct Hs as [Hrest Hy].
    destruct (Name_less x y) eqn:E.
    + constructor; [now apply IH|].
      apply (Permutation_Forall (Permutation_sym (move_left_Permutation _ x rest))).
      constructor; [|assumption].
      apply string_ltb_leb. exact E.
    + apply string_ltb_false in E.
      constructor; [now constructor|].
      constructor; [exact E|].
      eapply Forall_impl; [|exact Hy].
      intros z Hz. unfold Name_le in *. eapply string_leb_trans; eassumption.
Qed.

Lemma move_left_in_place (x : Field) (before : list Field) :
  Forall (fun y => Name_le y x) before ->
  move_left Name_less x before = x :: before.
Proof.
  intros H. destruct before as [|y rest]; [reflexivity|].
  simpl. inversion H as [|? ? Hy _]; subst.
  apply string_ltb_false in Hy. unfold Name_less. now rewrite Hy.
Qed.

(** *** The outer loop *)

Local Abbreviation pass :=
  (fold_left (fun before x => move_left (@Name_less Value) x before)).

Lemma pass_Permutation (l : list Field) :
  forall before, Permutation (pass l before) (rev l ++ before).
Proof.
  induction l as [|x l IH]; intros before; simpl; [reflexivity|].
  rewrite IH, move_left_Permutation, <- app_assoc. simpl.
  apply Permutation_app_head. reflexivity.
Qed.

Lemma pass_fields_named (n : string) (l : list Field) :
  forall before,
    fields_named n (pass l before)
    = rev (fields_named n l) ++ fields_named n before.
Proof.
  induction l as [|x l IH]; intros before; simpl; [reflexivity|].
  rewrite IH, move_left_fields_named. unfold fields_named. cbn [filter].
  destruct (has_Name n x); [|reflexivity].
  simpl. now rewrite <- app_assoc.
Qed.

Lemma pass_sorted (l : list Field) :
  forall before,
    StronglySorted Name_ge before -> StronglySorted Name_ge (pass l before).
Proof.
  induction l as [|x l IH]; intros before Hs; simpl; [assumption|].
  apply IH. now apply move_left_sorted.
Qed.

Lemma StronglySorted_app_inv {A : Type} (R : A -> A -> Prop) (l1 l2 : list A) :
  StronglySorted R (l1 ++ l2) ->
  StronglySorted R l2 /\ forall a b, In a l1 -> In b l2 -> R a b.
Proof.
  induction l1 as [|x l1 IH]; simpl; intros H.
  - split; [assumption | contradiction].
  - apply StronglySorted_inv in H. destruct H as [H Hx].
    destruct (IH H) as [H2 H12]. split; [assumption|].
    intros a b [<-|Ha] Hb; [|now apply H12].
    rewrite Forall_forall in Hx. apply Hx, in_or_app. now right.
Qed.

Lemma StronglySorted_snoc {A : Type} (R : A -> A -> Prop) (l : list A) (x : A) :
  StronglySorted R l -> Forall (fun y => R y x) l ->
  StronglySorted R (l ++ [x]).
Proof.
  induction l as [|y l IH]; simpl; intros Hs Hx.
  - repeat constructor.
  - apply StronglySorted_inv in Hs. destruct Hs as [Hs Hy].
    inversion Hx; subst.
    constructor; [now apply IH|].
    apply Forall_app. split; [assumption | now repeat constructor].
Qed.

Lemma StronglySorted_rev {A : Type} (R : A -> A -> Prop) (l : list A) :
  StronglySorted (fun a b => R b a) l -> StronglySorted R (rev l).
Proof.
  induction l as [|x l IH]; simpl; intros Hs; [constructor|].
  apply StronglySorted_inv in Hs. destruct Hs as [Hs Hx].
  apply StronglySorted_snoc; [now apply IH | now apply Forall_rev].
Qed.

Lemma pass_in_place (l : list Field) :
  forall before,
    sorted_by_Name (rev before ++ l) -> pass l before = rev l ++ before.
Proof.
  induction l as [|x l IH]; intros before Hs; simpl; [reflexivity|].
  destruct (StronglySorted_app_inv _ _ _ Hs) as [_ Hle].
  rewrite move_left_in_place.
  - rewrite IH; [now rewrite <- app_assoc|].
    simpl. now rewrite <- app_assoc.
  - apply Forall_forall. intros y Hy.
    apply Hle; [now apply in_rev in Hy | now left].
Qed.

(** *** The insertion sort, and any stable sort *)

Lemma insertionSort_Permutation (l : list Field) :
  Permutation (insertionSort Name_less l) l.
Proof.
  unfold insertionSort.
  rewrite <- Permutation_rev, pass_Permutation, app_nil_r.
  symmetry. apply Permutation_rev.
Qed.

Lemma insertionSort_sorted (l : list Field) :
  sorted_by_Name (insertionSort Name_less l).
Proof.
  unfold insertionSort, sorted_by_Name.
  apply StronglySorted_rev, pass_sorted. constructor.
Qed.

Lemma insertionSort_stable (n : string) (l : list Field) :
  fields_named n (insertionSort Name_less l) = fields_named n l.
Proof.
  unfold insertionSort.
  unfold fields_named at 1. rewrite filter_rev.
  fold (fields_named n (pass l [])).
  rewrite pass_fields_named. simpl. now rewrite app_nil_r, rev_involutive.
Qed.

Lemma insertionSort_in_place (l : list Field) :
  sorted_by_Name l -> insertionSort Name_less l = l.
Proof.
  intros Hs. unfold insertionSort.
  rewrite pass_in_place by exact Hs.
  now rewrite app_nil_r, rev_involutive.
Qed.

(** Two sorted lists that hold, under every name, the same fields in the
    same order are equal: the result of a stable sort by [Name] is determined
    by its input. *)
Lemma fields_named_head (x : Field) (l : list Field) :
  fields_named (Field_Name x) (x :: l) = x :: fields_named (Field_Name x) l.
Proof. unfold fields_named, has_Name. simpl. now rewrite String.eqb_refl. Qed.

Lemma fields_named_In (n : string) (x : Field) (l : list Field) :
  In x (fields_named n l) -> In x l.
Proof. unfold fields_named. intros H. now apply filter_In in H. Qed.

Lemma sorted_stable_unique (l1 : list Field) :
  forall l2 : list Field,
    sorted_by_Name l1 -> sorted_by_Name l2 ->
    (forall n, fields_named n l1 = fields_named n l2) ->
    l1 = l2.
Proof.
  induction l1 as [|x l1 IH]; intros [|y l2] H1 H2 Hn; try reflexivity.
  - specialize (Hn (Field_Name y)). rewrite fields_named_head in Hn.
    discriminate.
  - specialize (Hn (Field_Name x)). rewrite fields_named_head in Hn.
    discriminate.
  - apply StronglySorted_inv in H1, H2.
    destruct H1 as [H1 Hx], H2 as [H2 Hy].
    rewrite Forall_forall in Hx, Hy.
    assert (Field_Name x = Field_Name y) as Exy.
    { destruct (String.eqb_spec (Field_Name y) (Field_Name x)) as [E|E];
        [now symmetry|].
      destruct (String.eqb_spec (Field_Name x) (Field_Name y)) as [E'|E'];
        [assumption|].
      pose proof (Hn (Field_Name x)) as Hnx.
      pose proof (Hn (Field_Name y)) as Hny.
      rewrite fields_named_head in Hnx, Hny.
      unfold fields_named in Hnx at 2. unfold fields_named in Hny at 1.
      cbn [filter] in Hnx, Hny. unfold has_Name in Hnx at 1, Hny at 1.
      apply String.eqb_neq in E, E'. rewrite E in Hnx. rewrite E' in Hny.
      assert (In x l2) as Hx2
        by (eapply fields_named_In; unfold fields_named;
            rewrite <- Hnx; now left).
      assert (In y l1) as Hy1
        by (eapply fields_named_In; unfold fields_named;
            rewrite Hny; now left).
      apply String.leb_antisym; [apply Hx, Hy1 | apply Hy, Hx2]. }
    assert (x = y) as <-.
    { specialize (Hn (Field_Name x)). rewrite Exy in Hn at 2.
      rewrite !fields_named_head in Hn. rewrite <- Exy in Hn.
      now inversion Hn. }
    f_equal. apply IH; try assumption.
    intros n. specialize (Hn n). unfold fields_named in *. cbn [filter] in Hn.
    destruct (has_Name n x); [now inversion Hn | assumption].
Qed.

(** Whatever way [sort.SliceStable] sorts, by what its documentation
    promises it gives the result of the insertion sort. *)
Lemma stable_sort_unique (stable_sort : list Field -> list Field) :
  (forall l, sorted_by_Name (stable_sort l)) ->
  (forall n l, fields_named n (stable_sort l) = fields_named n l) ->
  forall l, stable_sort l = sort_SliceStable Name_less l.
Proof.
  intros Hs Hst l. unfold sort_SliceStable.
  apply sorted_stable_unique;
    [apply Hs | apply insertionSort_sorted |].
  intros n. now rewrite Hst, insertionSort_stable.
Qed.

(** *** FieldList.Sort *)

Lemma FieldList_Sort_two (f0 f1 : Field) :
  FieldList_Sort [f0; f1]
  = if String.ltb (Field_Name f1) (Field_Name f0) then [f1; f0] else [f0; f1].
Proof. reflexivity. Qed.

Lemma FieldList_Sort_general (f0 f1 f2 : Field) (l : list Field) :
  FieldList_Sort (f0 :: f1 :: f2 :: l)
  = insertionSort Name_less (f0 :: f1 :: f2 :: l).
Proof. reflexivity. Qed.

Lemma FieldList_Sort_Permutation (l : FieldList) :
  Permutation (FieldList_Sort l) l.
Proof.
  destruct l as [|f0 [|f1 [|f2 l]]]; try reflexivity.
  - rewrite FieldList_Sort_two.
    destruct (String.ltb _ _); [apply perm_swap | reflexivity].
  - rewrite FieldList_Sort_general. apply insertionSort_Permutation.
Qed.

Lemma FieldList_Sort_sorted (l : FieldList) :
  sorted_by_Name (FieldList_Sort l).
Proof.
  destruct l as [|f0 [|f1 [|f2 l]]].
  - constructor.
  - repeat constructor.
  - rewrite FieldList_Sort_two.
    destruct (String.ltb _ _) eqn:E.
    + apply string_ltb_leb in E. repeat constructor. exact E.
    + apply string_ltb_false in E. repeat constructor. exact E.
  - rewrite FieldList_Sort_general. apply insertionSort_sorted.
Qed.

Lemma FieldList_Sort_fields_named (n : string) (l : FieldList) :
  fields_named n (FieldList_Sort l) = fields_named n l.
Proof.
  destruct l as [|f0 [|f1 [|f2 l]]]; try reflexivity.
  - rewrite FieldList_Sort_two.
    destruct (String.ltb _ _) eqn:E; [|reflexivity].
    apply string_ltb_neq in E.
    unfold fields_named, has_Name. cbn [filter].
    destruct (String.eqb_spec (Field_Name f0) n) as [H0|H0];
      destruct (String.eqb_spec (Field_Name f1) n) as [H1|H1];
      try reflexivity.
    congruence.
  - rewrite FieldList_Sort_general. apply insertionSort_stable.
Qed.

Lemma FieldList_Sort_in_place (l : FieldList) :
  sorted_by_Name l -> FieldList_Sort l = l.
Proof.
  intros Hs. destruct l as [|f0 [|f1 [|f2 l]]]; try reflexivity.
  - rewrite FieldList_Sort_two.
    apply StronglySorted_inv in Hs. destruct Hs as [_ Hs].
    inversion Hs as [|? ? H01 _]; subst.
    apply string_ltb_false in H01. now rewrite H01.
  - rewrite FieldList_Sort_general. now apply insertionSort_in_place.
Qed.

(** C5. After [Sort] the list is a permutation of the original fields, in
    non-decreasing byte-wise lexicographic order of [Name]; a field keeps
    its value: under every name the values are those of the original list,
    in their original order. *)
Theorem Sort_sorted_permutation (l : FieldList) :
  Permutation (FieldList_Sort l) l
  /\ sorted_by_Name (FieldList_Sort l)
  /\ forall n : string,
       map Field_Value (fields_named n (FieldList_Sort l))
       = map Field_Value (fields_named n l).
Proof.
  split; [apply FieldList_Sort_Permutation|].
  split; [apply FieldList_Sort_sorted|].
  intros n. now rewrite FieldList_Sort_fields_named.
Qed.

(** C6. [Sort] is stable, for lists of every size: the fields that carry one
    name are, after [Sort], in the relative order they had before. *)
Theorem Sort_stable (l : FieldList) (n : string) :
  fields_named n (FieldList_Sort l) = fields_named n l.
Proof. apply FieldList_Sort_fields_named. Qed.

(** C7. [Sort] is idempotent: sorting twice gives the list that sorting once
    gives, and sorting a list that is already sorted leaves it as it is. *)
Theorem Sort_idempotent :
  (forall l : FieldList,
     FieldList_Sort (FieldList_Sort l) = FieldList_Sort l)
  /\ (forall l : FieldList, sorted_by_Name l -> FieldList_Sort l = l).
Proof.
  split.
  - intros l. apply FieldList_Sort_in_place, FieldList_Sort_sorted.
  - apply FieldList_Sort_in_place.
Qed.

End SortFacts.

(** ** The JSON helpers *)

Section JSONFacts.

Context {Value : Type}.
Variable codec : Codec Value.
Variable Equals : Value -> Value -> bool.

Local Abbreviation Field := (Field Value).
Local Abbreviation FieldList := (FieldList Value).

(** *** Decoding: the end of input and the errors *)

Lemma FromJSON_loop_budget (budget : nat) :
  forall (budget' : nat) (parser : FastObjParser codec) (fields : FieldList)
         (r : FieldList * option error),
    FromJSON_loop codec budget parser fields = Returned r ->
    (budget <= budget')%nat ->
    FromJSON_loop codec budget' parser fields = Returned r.
Proof.
  induction budget as [|budget IH]; intros budget' parser fields r H Hle;
    [discriminate|].
  destruct budget' as [|budget']; [lia|].
  simpl in *. destruct (FromJSON_body codec parser fields); try assumption.
  apply IH; [assumption | lia].
Qed.

(** C9. When the parser signals the end of input on the very first key
    read, as for an empty object, [FieldListFromJSON] returns an empty
    FieldList and a nil error. *)
Theorem FromJSON_empty_object (input raw : bytes)
    (parser' : FastObjParser codec) (budget : nat) :
  Parse codec (NewFastObjParser codec input) = (raw, Some io_EOF, parser') ->
  FieldListFromJSON codec (S budget) input = Returned ([], None).
Proof.
  intros H. unfold FieldListFromJSON. simpl. unfold FromJSON_body.
  rewrite H. reflexivity.
Qed.

Lemma FromJSON_body_error (parser : FastObjParser codec)
    (fields l : FieldList) (err : option error) :
  FromJSON_body codec parser fields = Pass_return codec l err ->
  l = [] /\ exists e, err = Some e /\ FromJSON_error_shape e.
Proof.
  assert (forall cause : error,
            FromJSON_error_shape (fmt_Errorf_v "parsing JSON: " cause))
    as Hwrap by (intros cause; right; now exists cause).
  assert (FromJSON_error_shape (fmt_Errorf "unexpected EOF"))
    as Heof by now left.
  unfold FromJSON_body.
  destruct (Parse codec parser) as [[rawKey [[|m1]|]] p1]; try discriminate.
  - intros H. inversion H. eauto.
  - destruct (Parse codec p1) as [[rawValue [[|m2]|]] p2].
    + intros H. inversion H. eauto.
    + intros H. inversion H. eauto.
    + destruct (UnmarshalString codec rawKey) as [k [e3|]].
      * intros H. inversion H. eauto.
      * destruct (UnmarshalInterface codec rawValue) as [v [e4|]];
          [|discriminate].
        intros H. inversion H. eauto.
Qed.

Lemma FromJSON_loop_error (budget : nat) :
  forall (parser : FastObjParser codec) (fields l : FieldList) (e : error),
    FromJSON_loop codec budget parser fields = Returned (l, Some e) ->
    l = [] /\ FromJSON_error_shape e.
Proof.
  induction budget as [|budget IH]; intros parser fields l e H;
    [discriminate|].
  simpl in H.
  destruct (FromJSON_body codec parser fields) as [|l' err'|p' f'] eqn:Eb.
  - discriminate.
  - inversion H; subst.
    apply FromJSON_body_error in Eb. destruct Eb as [-> (e' & He & Hs)].
    inversion He; subst. now split.
  - eapply IH; eassumption.
Qed.

Lemma FromJSON_loop_failure (parser : FastObjParser codec) (err : error)
    (budget : nat) (fields : FieldList) :
  FromJSON_failure codec parser err ->
  FromJSON_loop codec (S budget) parser fields = Returned ([], Some err).
Proof.
  intros H. simpl. unfold FromJSON_body.
  destruct H as [rawKey e p1 H1 He
                |rawKey p1 rawValue p2 H1 H2
                |rawKey p1 rawValue e p2 H1 H2 He
                |rawKey p1 rawValue p2 k e H1 H2 H3
                |rawKey p1 rawValue p2 k v e H1 H2 H3 H4].
  - rewrite H1. destruct e; [contradiction | reflexivity].
  - rewrite H1, H2. reflexivity.
  - rewrite H1, H2. destruct e; [contradiction | reflexivity].
  - rewrite H1, H2, H3. reflexivity.
  - rewrite H1, H2, H3, H4. reflexivity.
Qed.

(** The passes that decode the pairs [kvs]: they take the parser to the state
    it has after handing out their tokens, add the decoded fields, and use
    one pass of the budget each. *)
Lemma FromJSON_loop_pairs (kvs : list (bytes * bytes)) :
  forall (L : FieldList) (parser parser' : FastObjParser codec)
         (budget : nat) (fields : FieldList),
    hands_out codec parser (object_tokens kvs) parser' ->
    Forall2 (pair_decodes codec) kvs L ->
    FromJSON_loop codec (len kvs + budget) parser fields
    = FromJSON_loop codec budget parser' (fields ++ L).
Proof.
  induction kvs as [|kv kvs IH]; intros L parser parser' budget fields Hh HL;
    inversion HL as [|? f ? L' [Hk (x & Hx & Hv)] HL']; subst.
  - inversion Hh; subst. now rewrite app_nil_r.
  - cbn [object_tokens flat_map app] in Hh.
    inversion Hh as [|p raw p1 toks q HP1 Hh1]; subst.
    inversion Hh1 as [|p raw p2 toks q HP2 Hh2]; subst.
    cbn [List.length Nat.add FromJSON_loop]. unfold FromJSON_body.
    rewrite HP1, HP2, Hk, Hx.
    rewrite (IH L' p2 parser' budget _ Hh2 HL').
    rewrite <- app_assoc. cbn [app].
    destruct f as [n v]. cbn [Field_Name Field_Value] in *. now subst v.
Qed.

Lemma FromJSON_after_pairs (input : bytes) (kvs : list (bytes * bytes))
    (L : FieldList) (parser : FastObjParser codec) (budget : nat)
    (err : error) :
  hands_out codec (NewFastObjParser codec input) (object_tokens kvs) parser ->
  Forall2 (pair_decodes codec) kvs L ->
  (len kvs < budget)%nat ->
  FromJSON_failure codec parser err ->
  FieldListFromJSON codec budget input = Returned ([], Some err).
Proof.
  intros Hh HL Hb Hf. unfold FieldListFromJSON.
  replace budget with (len kvs + S (budget - S (len kvs)))%nat by lia.
  rewrite (FromJSON_loop_pairs kvs L _ parser _ _ Hh HL).
  now apply FromJSON_loop_failure.
Qed.

(** Every error that the loop returns comes from one of the five places,
    after pairs that decoded. *)
Lemma FromJSON_loop_error_origin (budget : nat) :
  forall (parser : FastObjParser codec) (fields l : FieldList) (err : error),
    FromJSON_loop codec budget parser fields = Returned (l, Some err) ->
    exists (kvs : list (bytes * bytes)) (L : FieldList)
           (parser' : FastObjParser codec),
      hands_out codec parser (object_tokens kvs) parser'
      /\ Forall2 (pair_decodes codec) kvs L
      /\ (len kvs < budget)%nat
      /\ FromJSON_failure codec parser' err.
Proof.
  induction budget as [|budget IH]; intros parser fields l err H;
    [discriminate|].
  cbn [FromJSON_loop] in H. unfold FromJSON_body in H.
  destruct (Parse codec parser) as [[rawKey [e1|]] p1] eqn:E1.
  { destruct e1 as [|m1]; [discriminate|].
    injection H as _ <-.
    exists [], [], parser. repeat split; [constructor | constructor | simpl; lia|].
    apply (key_token_failure codec parser rawKey (error_of m1) p1 E1).
    discriminate. }
  destruct (Parse codec p1) as [[rawValue [e2|]] p2] eqn:E2.
  { exists [], [], parser. repeat split; [constructor | constructor | simpl; lia|].
    destruct e2 as [|m2]; injection H as _ <-.
    - exact (value_missing codec parser rawKey p1 rawValue p2 E1 E2).
    - apply (value_token_failure codec parser rawKey p1 rawValue
               (error_of m2) p2 E1 E2).
      discriminate. }
  destruct (UnmarshalString codec rawKey) as [k [e3|]] eqn:E3.
  { injection H as _ <-.
    exists [], [], parser. repeat split; [constructor | constructor | simpl; lia|].
    exact (key_unescape_failure codec parser rawKey p1 rawValue p2 k e3
             E1 E2 E3). }
  destruct (UnmarshalInterface codec rawValue) as [v [e4|]] eqn:E4.
  { injection H as _ <-.
    exists [], [], parser. repeat split; [constructor | constructor | simpl; lia|].
    exact (value_unmarshal_failure codec parser rawKey p1 rawValue p2 k v e4
             E1 E2 E3 E4). }
  apply IH in H. destruct H as (kvs & L & parser' & Hh & HL & Hb & Hf).
  exists ((rawKey, rawValue) :: kvs),
         (mkField k (NewValueInterface codec v) :: L), parser'.
  repeat split.
  - cbn [object_tokens flat_map app fst snd].
    apply (hands_out_token codec parser rawKey p1 _ parser' E1).
    exact (hands_out_token codec p1 rawValue p2 _ parser' E2 Hh).
  - constructor; [|exact HL].
    split; [exact E3|]. exists v. split; [exact E4 | reflexivity].
  - simpl. lia.
  - exact Hf.
Qed.

(** C8. The errors of [FieldListFromJSON].  Let the parser, started on the
    input, hand out the raw keys and values of any number of pairs, all of
    which decode, and let the budget allow one pass more than there are
    pairs.  Then, at the next pass: a failure of the parser on the key, other
    than the end of input, a failure of the parser on the value, other than
    the end of input, a failure to unescape the key and a failure to decode
    the value each make [FieldListFromJSON] return the nil FieldList and an
    error whose message is the cause's after the prefix "parsing JSON: "; and
    the end of input right after the key makes it return the nil FieldList
    and the error "unexpected EOF".  Conversely, whenever
    [FieldListFromJSON] returns an error, the FieldList returned with it is
    nil, the error has one of these two shapes, and it comes from one of
    these five failures after pairs that decoded. *)
Theorem FromJSON_errors :
  (forall (input : bytes) (kvs : list (bytes * bytes)) (L : FieldList)
          (parser : FastObjParser codec) (budget : nat),
     hands_out codec (NewFastObjParser codec input) (object_tokens kvs) parser ->
     Forall2 (pair_decodes codec) kvs L ->
     (len kvs < budget)%nat ->
     (forall rawKey e parser1,
        Parse codec parser = (rawKey, Some e, parser1) ->
        e <> io_EOF ->
        FieldListFromJSON codec budget input
        = Returned ([], Some (error_of ("parsing JSON: " ++ Error e))))
     /\ (forall rawKey parser1 rawValue parser2,
           Parse codec parser = (rawKey, None, parser1) ->
           Parse codec parser1 = (rawValue, Some io_EOF, parser2) ->
           FieldListFromJSON codec budget input
           = Returned ([], Some (error_of "unexpected EOF")))
     /\ (forall rawKey parser1 rawValue e parser2,
           Parse codec parser = (rawKey, None, parser1) ->
           Parse codec parser1 = (rawValue, Some e, parser2) ->
           e <> io_EOF ->
           FieldListFromJSON codec budget input
           = Returned ([], Some (error_of ("parsing JSON: " ++ Error e))))
     /\ (forall rawKey parser1 rawValue parser2 k e,
           Parse codec parser = (rawKey, None, parser1) ->
           Parse codec parser1 = (rawValue, None, parser2) ->
           UnmarshalString codec rawKey = (k, Some e) ->
           FieldListFromJSON codec budget input
           = Returned ([], Some (error_of ("parsing JSON: " ++ Error e))))
     /\ (forall rawKey parser1 rawValue parser2 k v e,
           Parse codec parser = (rawKey, None, parser1) ->
           Parse codec parser1 = (rawValue, None, parser2) ->
           UnmarshalString codec rawKey = (k, None) ->
           UnmarshalInterface codec rawValue = (v, Some e) ->
           FieldListFromJSON codec budget input
           = Returned ([], Some (error_of ("parsing JSON: " ++ Error e)))))
  /\ (forall (budget : nat) (input : bytes) (l : FieldList) (err : error),
        FieldListFromJSON codec budget input = Returned (l, Some err) ->
        l = []
        /\ FromJSON_error_shape err
        /\ exists (kvs : list (bytes * bytes)) (L : FieldList)
                  (parser : FastObjParser codec),
             hands_out codec (NewFastObjParser codec input)
               (object_tokens kvs) parser
             /\ Forall2 (pair_decodes codec) kvs L
             /\ (len kvs < budget)%nat
             /\ FromJSON_failure codec parser err).
Proof.
  split.
  - intros input kvs L parser budget Hh HL Hb.
    pose proof (FromJSON_after_pairs input kvs L parser budget) as Hfail.
    refine (conj _ (conj _ (conj _ (conj _ _)))).
    + intros rawKey e parser1 H1 He. apply Hfail; try assumption.
      exact (key_token_failure codec parser rawKey e parser1 H1 He).
    + intros rawKey parser1 rawValue parser2 H1 H2.
      apply Hfail; try assumption.
      exact (value_missing codec parser rawKey parser1 rawValue parser2 H1 H2).
    + intros rawKey parser1 rawValue e parser2 H1 H2 He.
      apply Hfail; try assumption.
      exact (value_token_failure codec parser rawKey parser1 rawValue e
               parser2 H1 H2 He).
    + intros rawKey parser1 rawValue parser2 k e H1 H2 H3.
      apply Hfail; try assumption.
      exact (key_unescape_failure codec parser rawKey parser1 rawValue
               parser2 k e H1 H2 H3).
    + intros rawKey parser1 rawValue parser2 k v e H1 H2 H3 H4.
      apply Hfail; try assumption.
      exact (value_unmarshal_failure codec parser rawKey parser1 rawValue
               parser2 k v e H1 H2 H3 H4).
  - intros budget input l err H. unfold FieldListFromJSON in H.
    destruct (FromJSON_loop_error _ _ _ _ _ H) as [Hl Hs].
    split; [exact Hl|]. split; [exact Hs|].
    exact (FromJSON_loop_error_origin _ _ _ _ _ H).
Qed.

(** *** Encoding, then decoding *)

Lemma ToJSON_range_text (rest : list Field) :
  forall (pre : list Field) (w w' : JSONBuilder),
    ToJSON_range codec (pre ++ rest) (len pre) rest w = (w', None) ->
    exists kvs : list (bytes * bytes),
      Forall2 (marshalled codec) rest kvs
      /\ w' = w ++ members_text kvs ++ ["}"%char].
Proof.
  induction rest as [|f rest IH]; intros pre w w' H.
  - simpl in H. inversion H. exists []. split; [constructor | reflexivity].
  - cbn [ToJSON_range] in H. unfold WriteJSON, WriteByte in H.
    destruct (Marshal codec (any_string codec (Field_Name f)))
      as [k [e|]] eqn:Ek; [discriminate|].
    destruct (Marshal codec (Unstructured codec (Field_Value f)))
      as [v [e|]] eqn:Ev; [discriminate|].
    replace (pre ++ f :: rest) with ((pre ++ [f]) ++ rest) in H
      by now rewrite <- app_assoc.
    replace (len pre + 1)%nat with (len (pre ++ [f])) in H
      by now rewrite length_app.
    apply IH in H. destruct H as (kvs & Hkvs & ->).
    exists ((k, v) :: kvs). split; [constructor; [now split | assumption]|].
    cbn [members_text].
    destruct Hkvs as [|f' kv' rest' kvs' Hf' Hrest'];
      match goal with
      | |- context [if ?c then _ else _] => destruct c eqn:Ec
      end;
      try (apply Z.ltb_lt in Ec; rewrite !length_app in Ec; simpl in Ec; lia);
      try (apply Z.ltb_ge in Ec; rewrite !length_app in Ec; simpl in Ec; lia).
    + repeat first [rewrite <- app_assoc | rewrite app_nil_r | progress simpl].
      reflexivity.
    + repeat first [rewrite <- app_assoc | progress simpl].
      reflexivity.
Qed.

Lemma FromJSON_loop_reads (Hc : CodecContract codec Equals)
    (rest : list Field) (kvs : list (bytes * bytes)) :
  Forall2 (marshalled codec) rest kvs ->
  forall parser : FastObjParser codec,
    reads codec parser (object_tokens kvs) ->
    exists L' : FieldList,
      Forall2 (decoded Equals) L' rest
      /\ forall (budget : nat) (fields : FieldList),
           (len rest < budget)%nat ->
           FromJSON_loop codec budget parser fields
           = Returned (fields ++ L', None).
Proof.
  induction 1 as [|f kv rest kvs [Hk Hv] _ IH]; intros parser Hr.
  - inversion Hr as [p raw p' HP|]; subst.
    exists []. split; [constructor|].
    intros [|budget] fields Hb; [simpl in Hb; lia|].
    simpl. unfold FromJSON_body. rewrite HP, app_nil_r. reflexivity.
  - cbn [object_tokens flat_map app] in Hr.
    inversion Hr as [|p raw p1 toks HP1 Hr1]; subst.
    inversion Hr1 as [|p raw p2 toks HP2 Hr2]; subst.
    apply (unmarshal_string _ _ Hc) in Hk.
    apply (unmarshal_value _ _ Hc) in Hv. destruct Hv as (x & Hx & He).
    destruct (IH p2 Hr2) as (L' & HL' & Hloop).
    exists (mkField (Field_Name f) (NewValueInterface codec x) :: L').
    split; [constructor; [now split | assumption]|].
    intros [|budget] fields Hb; [simpl in Hb; lia|].
    cbn [FromJSON_loop]. unfold FromJSON_body.
    rewrite HP1, HP2, Hk, Hx.
    rewrite Hloop by (simpl in Hb; lia).
    now rewrite <- app_assoc.
Qed.

Lemma decoded_Equals_walk (L' L : FieldList) :
  Forall2 (decoded Equals) L' L -> Equals_walk Equals L' L = true.
Proof.
  induction 1 as [|f' f L' L [Hn He] _ IH]; [reflexivity|].
  cbn [Equals_walk]. rewrite Hn, String.eqb_refl, He, IH. reflexivity.
Qed.

(** C3. Round trip.  When the parser, the decoding routines and the builder
    do what the spec says of them, and [FieldListToJSON] serializes [L]
    without an error, [FieldListFromJSON] on the bytes produced returns a
    FieldList [L'] and no error, and [L'.Equals(L)] returns true. *)
Theorem JSON_round_trip (Hc : CodecContract codec Equals)
    (L : FieldList) (w : JSONBuilder) :
  FieldListToJSON codec L [] = (w, None) ->
  exists L' : FieldList,
    (forall budget : nat,
       (len L < budget)%nat ->
       FieldListFromJSON codec budget w = Returned (L', None))
    /\ FieldList_Equals Equals L' L = Returned true.
Proof.
  intros H. unfold FieldListToJSON in H.
  apply (ToJSON_range_text L []) in H. destruct H as (kvs & Hkvs & ->).
  assert (reads codec (NewFastObjParser codec (object_text kvs))
            (object_tokens kvs)) as Hr.
  { apply (parse_object _ _ Hc).
    clear - Hkvs. induction Hkvs as [|f kv rest kvs [Hk Hv] _ IH];
      constructor; [|assumption].
    split; eexists; eassumption. }
  destruct (FromJSON_loop_reads Hc L kvs Hkvs _ Hr) as (L' & HL' & Hloop).
  exists L'. split.
  - intros budget Hb. unfold FieldListFromJSON.
    exact (Hloop budget [] Hb).
  - rewrite FieldList_Equals_walk.
    rewrite (Forall2_length HL'), Nat.eqb_refl.
    now rewrite (decoded_Equals_walk _ _ HL').
Qed.

End JSONFacts.

(** ** The instances *)

Lemma IntEquals_IntCompare (a b : Z) :
  IntEquals a b = true <-> IntCompare a b = 0.
Proof.
  unfold IntEquals, IntCompare.
  destruct (Z.gtb_spec a b), (Z.ltb_spec a b), (Z.eqb_spec a b);
    split; intros; (lia || discriminate || reflexivity).
Qed.

Lemma IntCompare_opp (a b : Z) : IntCompare a b = - IntCompare b a.
Proof.
  unfold IntCompare.
  destruct (Z.gtb_spec a b), (Z.ltb_spec a b), (Z.gtb_spec b a),
    (Z.ltb_spec b a); lia.
Qed.

Lemma IntCompare_refl (a : Z) : IntCompare a a = 0.
Proof.
  unfold IntCompare. now rewrite Z.gtb_ltb, Z.ltb_irrefl.
Qed.

(** *** The codec for plain strings does what the spec asks *)

Lemma opens_token_not_closing (o : ascii) :
  opens_token o = true -> Ascii.eqb o "}" = false.
Proof.
  unfold opens_token. intros H.
  destruct (Ascii.eqb_spec o "}") as [->|]; [discriminate H | reflexivity].
Qed.

Lemma not_structural_not_closing (c : ascii) :
  structural c = false -> Ascii.eqb c "}" = false.
Proof.
  unfold structural. intros H.
  destruct (Ascii.eqb c "}"); [|reflexivity].
  rewrite orb_true_r in H. discriminate H.
Qed.

Lemma take_token_app (tok : bytes) (d : ascii) (rest : bytes) :
  Forall (fun c => structural c = false) tok ->
  structural d = true ->
  take_token (tok ++ d :: rest) = (tok, d :: rest).
Proof.
  intros Htok Hd. induction Htok as [|c tok Hc _ IH]; simpl.
  - now rewrite Hd.
  - now rewrite Hc, IH.
Qed.

Lemma plain_Parse_token (o : ascii) (tok : bytes) (d : ascii) (rest : bytes) :
  opens_token o = true -> plain_token tok -> structural d = true ->
  plain_Parse (o :: tok ++ d :: rest) = (tok, None, d :: rest).
Proof.
  intros Ho [Hne Htok] Hd. unfold plain_Parse.
  rewrite (opens_token_not_closing _ Ho), Ho.
  destruct tok as [|c tok]; [contradiction|].
  cbn [app]. inversion Htok as [|? ? Hc Htok']; subst.
  rewrite (not_structural_not_closing _ Hc).
  change (c :: tok ++ d :: rest) with ((c :: tok) ++ d :: rest).
  now rewrite (take_token_app _ _ _ Htok Hd).
Qed.

Lemma plain_Marshal_inv (s : string) (raw : bytes) :
  plain_Marshal s = (raw, None) ->
  raw = quote :: list_ascii_of_string s ++ [quote]
  /\ forallb plain_byte (list_ascii_of_string s) = true.
Proof.
  unfold plain_Marshal.
  destruct (forallb plain_byte (list_ascii_of_string s));
    intros H; inversion H; auto.
Qed.

Lemma written_plain_token (raw : bytes) :
  written PlainCodec raw -> plain_token raw.
Proof.
  intros [s Hs]. apply plain_Marshal_inv in Hs. destruct Hs as [-> Hs].
  split; [discriminate|].
  constructor; [reflexivity|].
  apply Forall_app. split; [|now repeat constructor].
  apply Forall_forall. intros c Hc.
  rewrite forallb_forall in Hs. apply Hs in Hc.
  unfold plain_byte in Hc. apply andb_prop in Hc.
  now apply negb_true_iff.
Qed.

Lemma plain_reads_members (kvs : list (bytes * bytes)) :
  forall o : ascii,
    opens_token o = true ->
    Forall (fun kv => plain_token (fst kv) /\ plain_token (snd kv)) kvs ->
    reads PlainCodec (o :: members_text kvs ++ ["}"%char]) (object_tokens kvs).
Proof.
  induction kvs as [|[k v] kvs IH]; intros o Ho Hkvs.
  - apply (reads_EOF PlainCodec _ [] ["}"%char]).
    cbn. rewrite (opens_token_not_closing _ Ho), Ho. reflexivity.
  - inversion Hkvs as [|? ? [Hk Hv] Hkvs']; subst. cbn [fst snd] in Hk, Hv.
    cbn [members_text object_tokens flat_map fst snd app].
    rewrite <- !app_assoc. cbn [app].
    eapply reads_token;
      [apply (plain_Parse_token o k ":"); [assumption | assumption | reflexivity]|].
    rewrite <- !app_assoc.
    destruct kvs as [|kv' kvs].
    + cbn [app flat_map].
      eapply reads_token;
        [apply (plain_Parse_token ":" v "}" []);
         [reflexivity | assumption | reflexivity]|].
      now apply (reads_EOF PlainCodec _ [] []).
    + cbn [app].
      eapply reads_token;
        [apply (plain_Parse_token ":" v ",");
         [reflexivity | assumption | reflexivity]|].
      apply (IH ","%char); [reflexivity | assumption].
Qed.

Lemma plain_Unmarshal_Marshal (s : string) (raw : bytes) :
  plain_Marshal s = (raw, None) -> plain_Unmarshal raw = (s, None).
Proof.
  intros H. apply plain_Marshal_inv in H. destruct H as [-> _].
  unfold plain_Unmarshal. rewrite rev_app_distr. cbn [rev app].
  rewrite Ascii.eqb_refl, rev_involutive, string_of_list_ascii_of_string.
  reflexivity.
Qed.

Lemma PlainCodec_contract : CodecContract PlainCodec String.eqb.
Proof.
  constructor.
  - intros kvs Hkvs. unfold object_text.
    apply (plain_reads_members kvs "{"%char); [reflexivity|].
    eapply Forall_impl; [|exact Hkvs].
    intros kv [Hk Hv]. split; now apply written_plain_token.
  - intros s raw H. now apply plain_Unmarshal_Marshal.
  - intros v raw H. exists v. split.
    + now apply plain_Unmarshal_Marshal.
    + apply String.eqb_refl.
Qed.

(** ** The theorems on concrete inputs *)

Lemma Equals_iff_Compare_zero_witness :
  FieldList_Equals IntEquals
    [mkField "a" 1; mkField "b" 2] [mkField "a" 1; mkField "b" 2]
  = Returned true
  <-> FieldList_Compare IntCompare
        [mkField "a" 1; mkField "b" 2] [mkField "a" 1; mkField "b" 2]
      = Returned 0.
Proof.
  apply (Equals_iff_Compare_zero IntCompare IntEquals IntEquals_IntCompare).
Defined.

Lemma Compare_antisymmetric_witness :
  (exists c : Z,
     FieldList_Compare IntCompare [mkField "b" 2] [mkField "a" 1; mkField "b" 2]
     = Returned c
     /\ FieldList_Compare IntCompare
          [mkField "a" 1; mkField "b" 2] [mkField "b" 2]
        = Returned (- c))
  /\ FieldList_Compare IntCompare
       [mkField "a" 1; mkField "b" 2] [mkField "a" 1; mkField "b" 2]
     = Returned 0.
Proof.
  split.
  - apply (proj1 (Compare_antisymmetric IntCompare) IntCompare_opp).
  - apply (proj2 (Compare_antisymmetric IntCompare) IntCompare_refl).
Defined.

Lemma Compare_strict_prefix_witness :
  strictly_extends IntCompare [mkField "a" 1] [mkField "a" 1; mkField "b" 2]
  /\ FieldList_Compare IntCompare [mkField "a" 1] [mkField "a" 1; mkField "b" 2]
     = Returned (-1)
  /\ FieldList_Compare IntCompare [mkField "a" 1; mkField "b" 2] [mkField "a" 1]
     = Returned 1.
Proof.
  assert (strictly_extends IntCompare
            [mkField "a" 1] [mkField "a" 1; mkField "b" 2]) as H.
  { split; [simpl; lia|].
    intros [|i] p q Hp Hq.
    - inversion Hp. inversion Hq. repeat split.
    - destruct i; discriminate Hp. }
  split; [exact H|].
  apply (proj1 (Compare_strict_prefix IntCompare)). exact H.
Defined.

Lemma Sort_idempotent_witness :
  sorted_by_Name [mkField "a" 1; mkField "b" 2; mkField "c" 3]
  /\ FieldList_Sort [mkField "a" 1; mkField "b" 2; mkField "c" 3]
     = [mkField "a" 1; mkField "b" 2; mkField "c" 3].
Proof.
  assert (sorted_by_Name [mkField "a" 1; mkField "b" 2; mkField "c" 3]) as H
    by (unfold sorted_by_Name, Name_le; repeat constructor).
  split; [exact H|].
  apply (proj2 (@Sort_idempotent Z)). exact H.
Defined.

Lemma Compare_terminates_witness :
  (1 = 1 /\ 0 < 1 /\ 0 < 2)%nat
  /\ exists c : Z,
       Compare_body IntCompare
         [mkField "a" 1] [mkField "a" 1; mkField "b" 2] 1 = Return c.
Proof.
  pose proof (Compare_terminates IntCompare
                [mkField "a" 1] [mkField "a" 1; mkField "b" 2])
    as (_ & Hstep & Hend).
  split.
  - apply (Hstep 0%nat 1%nat). reflexivity.
  - apply (Hend 1%nat). left. simpl. lia.
Defined.

Lemma FromJSON_empty_object_witness :
  Parse PlainCodec (NewFastObjParser PlainCodec ["{"; "}"]%char)
  = ([], Some io_EOF, ["}"%char])
  /\ FieldListFromJSON PlainCodec 1 ["{"; "}"]%char = Returned ([], None).
Proof.
  split; [reflexivity|].
  apply (FromJSON_empty_object PlainCodec ["{"; "}"]%char [] ["}"%char] 0).
  reflexivity.
Defined.

Lemma FromJSON_errors_witness :
  FieldListFromJSON PlainCodec 2
    ["{"; quote; "a"; quote; ":"; quote; "x"; quote; ","; ":"]%char
  = Returned ([], Some (error_of "parsing JSON: invalid character"))
  /\ FieldListFromJSON PlainCodec 2
       ["{"; quote; "a"; quote; ":"; quote; "x"; quote; ",";
        quote; "b"; quote; "}"]%char
     = Returned ([], Some (error_of "unexpected EOF"))
  /\ FieldListFromJSON PlainCodec 2
       ["{"; quote; "a"; quote; ":"; quote; "x"; quote; ",";
        quote; "b"; quote; ":"; ":"]%char
     = Returned ([], Some (error_of "parsing JSON: invalid character"))
  /\ FieldListFromJSON PlainCodec 2
       ["{"; quote; "a"; quote; ":"; quote; "x"; quote; ",";
        "b"; ":"; quote; "y"; quote; "}"]%char
     = Returned ([], Some (error_of "parsing JSON: not a string"))
  /\ FieldListFromJSON PlainCodec 2
       ["{"; quote; "a"; quote; ":"; quote; "x"; quote; ",";
        quote; "b"; quote; ":"; "y"; "}"]%char
     = Returned ([], Some (error_of "parsing JSON: not a string"))
  /\ ([] = @nil (Field string)
      /\ FromJSON_error_shape (error_of "parsing JSON: not a string")
      /\ exists (kvs : list (bytes * bytes)) (L : FieldList string)
                (parser : FastObjParser PlainCodec),
           hands_out PlainCodec
             (NewFastObjParser PlainCodec
                ["{"; quote; "a"; quote; ":"; quote; "x"; quote; ",";
                 quote; "b"; quote; ":"; "y"; "}"]%char)
             (object_tokens kvs) parser
           /\ Forall2 (pair_decodes PlainCodec) kvs L
           /\ (len kvs < 2)%nat
           /\ FromJSON_failure PlainCodec parser
                (error_of "parsing JSON: not a string")).
Proof.
  pose proof (FromJSON_errors PlainCodec) as [Hfail Horigin].
  assert (Forall2 (pair_decodes PlainCodec)
            [([quote; "a"; quote], [quote; "x"; quote])]%char
            [mkField "a" "x"%string]) as HL.
  { constructor; [|constructor].
    split; [reflexivity|]. exists "x"%string. split; reflexivity. }
  assert (forall rest : bytes,
            hands_out PlainCodec
              (NewFastObjParser PlainCodec
                 (["{"; quote; "a"; quote; ":"; quote; "x"; quote]%char
                  ++ ","%char :: rest))
              (object_tokens [([quote; "a"; quote], [quote; "x"; quote])]%char)
              (","%char :: rest)) as Hh.
  { intros rest.
    eapply hands_out_token; [reflexivity|].
    eapply hands_out_token; [reflexivity|].
    apply hands_out_none. }
  assert (1 < 2)%nat as Hb by lia.
  refine (conj _ (conj _ (conj _ (conj _ (conj _ _))))).
  - destruct (Hfail _ _ _ _ 2%nat (Hh [":"%char]) HL Hb) as (H1 & _).
    apply (H1 [] (error_of "invalid character") [":"%char]);
      [reflexivity | discriminate].
  - destruct (Hfail _ _ _ _ 2%nat (Hh [quote; "b"; quote; "}"]%char) HL Hb)
      as (_ & H2 & _).
    apply (H2 [quote; "b"; quote]%char ["}"%char] [] []); reflexivity.
  - destruct (Hfail _ _ _ _ 2%nat (Hh [quote; "b"; quote; ":"; ":"]%char) HL Hb)
      as (_ & _ & H3 & _).
    apply (H3 [quote; "b"; quote]%char [":"; ":"]%char []
             (error_of "invalid character") [":"%char]);
      [reflexivity | reflexivity | discriminate].
  - destruct (Hfail _ _ _ _ 2%nat
                (Hh ["b"; ":"; quote; "y"; quote; "}"]%char) HL Hb)
      as (_ & _ & _ & H4 & _).
    apply (H4 ["b"%char] [":"; quote; "y"; quote; "}"]%char
             [quote; "y"; quote]%char ["}"%char] EmptyString
             (error_of "not a string"));
      reflexivity.
  - destruct (Hfail _ _ _ _ 2%nat
                (Hh [quote; "b"; quote; ":"; "y"; "}"]%char) HL Hb)
      as (_ & _ & _ & _ & H5).
    apply (H5 [quote; "b"; quote]%char [":"; "y"; "}"]%char
             ["y"%char] ["}"%char] "b"%string EmptyString
             (error_of "not a string"));
      reflexivity.
  - apply (Horigin 2%nat
             ["{"; quote; "a"; quote; ":"; quote; "x"; quote; ",";
              quote; "b"; quote; ":"; "y"; "}"]%char).
    reflexivity.
Defined.

Lemma JSON_round_trip_witness :
  exists L' : FieldList string,
    (forall budget : nat,
       (2 < budget)%nat ->
       FieldListFromJSON PlainCodec budget
         (fst (FieldListToJSON PlainCodec
                 [mkField "b" "x"%string; mkField "a" "y"%string] []))
       = Returned (L', None))
    /\ FieldList_Equals String.eqb L' [mkField "b" "x"%string; mkField "a" "y"%string]
       = Returned true.
Proof.
  apply (JSON_round_trip PlainCodec String.eqb PlainCodec_contract
           [mkField "b" "x"%string; mkField "a" "y"%string]).
  reflexivity.
Defined.

(** * Further properties of the code *)

(** ** Compare, Less and Equals as an order *)

Lemma strings_Compare_Lt (a b : string) :
  strings_Compare a b = -1 <-> String.compare a b = Lt.
Proof.
  unfold strings_Compare.
  destruct (String.compare a b); split; intros H; congruence || lia.
Qed.

Lemma strings_Compare_trans (a b c : string) :
  strings_Compare a b = -1 -> strings_Compare b c = -1 ->
  strings_Compare a c = -1.
Proof.
  rewrite !strings_Compare_Lt. apply string_compare_Lt_trans.
Qed.

Section OrderFacts.

Context {Value : Type}.
Variable Compare : Value -> Value -> Z.
Variable Equals : Value -> Value -> bool.

Local Abbreviation Field := (Field Value).
Local Abbreviation FieldList := (FieldList Value).

Lemma FieldList_Less_walk (f rhs : FieldList) :
  FieldList_Less Compare f rhs = Returned (Compare_walk Compare f rhs =? -1).
Proof.
  unfold FieldList_Less. now rewrite FieldList_Compare_walk.
Qed.

Lemma Compare_walk_range
    (Hrange : forall a b : Value,
        Compare a b = -1 \/ Compare a b = 0 \/ Compare a b = 1)
    (f : FieldList) :
  forall rhs : FieldList,
    Compare_walk Compare f rhs = -1 \/ Compare_walk Compare f rhs = 0
    \/ Compare_walk Compare f rhs = 1.
Proof.
  induction f as [|a f IH]; intros [|b rhs]; cbn [Compare_walk]; auto.
  destruct (strings_Compare (Field_Name a) (Field_Name b) =? 0);
    [|apply strings_Compare_range].
  destruct (Compare (Field_Value a) (Field_Value b) =? 0);
    [apply IH | apply Hrange].
Qed.

(** The result of [Compare] is -1, 0 or +1, as its comment says, provided
    the comparison of values only gives these. *)
Theorem Compare_range
    (Hrange : forall a b : Value,
        Compare a b = -1 \/ Compare a b = 0 \/ Compare a b = 1)
    (A B : FieldList) :
  FieldList_Compare Compare A B = Returned (-1)
  \/ FieldList_Compare Compare A B = Returned 0
  \/ FieldList_Compare Compare A B = Returned 1.
Proof.
  rewrite FieldList_Compare_walk.
  destruct (Compare_walk_range Hrange A B) as [-> | [-> | ->]]; auto.
Qed.

Lemma Compare_walk_trans
    (Hanti : forall a b : Value, Compare a b = - Compare b a)
    (Htrans : forall a b c : Value,
        Compare a b = -1 -> Compare b c = -1 -> Compare a c = -1)
    (Hzero : forall a b c : Value,
        Compare a b = 0 -> Compare a c = Compare b c)
    (A : FieldList) :
  forall B C : FieldList,
    Compare_walk Compare A B = -1 -> Compare_walk Compare B C = -1 ->
    Compare_walk Compare A C = -1.
Proof.
  assert (Hzero' : forall a b c : Value,
             Compare b c = 0 -> Compare a c = Compare a b).
  { intros a b c H. rewrite (Hanti a c), (Hanti a b). f_equal.
    symmetry. apply Hzero. exact H. }
  induction A as [|a A IH]; intros [|b B] [|c C]; cbn [Compare_walk];
    try (intros; (reflexivity || discriminate)).
  destruct (strings_Compare (Field_Name a) (Field_Name b) =? 0) eqn:Eab;
    destruct (strings_Compare (Field_Name b) (Field_Name c) =? 0) eqn:Ebc.
  - apply Z.eqb_eq, strings_Compare_zero in Eab, Ebc.
    rewrite Eab, Ebc, (proj2 (strings_Compare_zero _ _) eq_refl). cbn [Z.eqb].
    destruct (Compare (Field_Value a) (Field_Value b) =? 0) eqn:Vab;
      destruct (Compare (Field_Value b) (Field_Value c) =? 0) eqn:Vbc;
      intros HAB HBC.
    + apply Z.eqb_eq in Vab, Vbc.
      rewrite (Hzero _ _ _ Vab), Vbc. cbn [Z.eqb]. now apply (IH B C).
    + apply Z.eqb_eq in Vab. rewrite (Hzero _ _ _ Vab), Vbc. exact HBC.
    + apply Z.eqb_eq in Vbc. rewrite (Hzero' _ _ _ Vbc), Vab. exact HAB.
    + rewrite (Htrans _ _ _ HAB HBC). reflexivity.
  - apply Z.eqb_eq, strings_Compare_zero in Eab. rewrite Eab, Ebc.
    intros _ H. exact H.
  - apply Z.eqb_eq, strings_Compare_zero in Ebc. rewrite <- Ebc, Eab.
    intros H _. exact H.
  - intros HAB HBC. rewrite (strings_Compare_trans _ _ _ HAB HBC). reflexivity.
Qed.

(** [Less] is a strict order on field lists when the comparison of values
    orders the values: no list is less than itself, two lists are never each
    less than the other, and [Less] is transitive. *)
Theorem Less_strict_order
    (Hanti : forall a b : Value, Compare a b = - Compare b a)
    (Htrans : forall a b c : Value,
        Compare a b = -1 -> Compare b c = -1 -> Compare a c = -1)
    (Hzero : forall a b c : Value,
        Compare a b = 0 -> Compare a c = Compare b c) :
  (forall A : FieldList, FieldList_Less Compare A A = Returned false)
  /\ (forall A B : FieldList,
        FieldList_Less Compare A B = Returned true ->
        FieldList_Less Compare B A = Returned false)
  /\ (forall A B C : FieldList,
        FieldList_Less Compare A B = Returned true ->
        FieldList_Less Compare B C = Returned true ->
        FieldList_Less Compare A C = Returned true).
Proof.
  assert (Hrefl : forall a : Value, Compare a a = 0)
    by (intros a; pose proof (Hanti a a); lia).
  split; [|split].
  - intros A. rewrite FieldList_Less_walk, (Compare_walk_refl _ Hrefl).
    reflexivity.
  - intros A B. rewrite !FieldList_Less_walk.
    rewrite (Compare_walk_opp _ Hanti B A).
    intros H. injection H as H'. apply Z.eqb_eq in H'. rewrite H'.
    reflexivity.
  - intros A B C. rewrite !FieldList_Less_walk.
    intros HAB HBC. injection HAB as HAB'. injection HBC as HBC'.
    apply Z.eqb_eq in HAB', HBC'.
    rewrite (Compare_walk_trans Hanti Htrans Hzero A B C HAB' HBC').
    reflexivity.
Qed.

(** Of [A.Less(B)], [A.Equals(B)] and [B.Less(A)] exactly one returns true,
    when the comparison of values gives -1, 0 or +1, is antisymmetric, and
    gives 0 exactly where the equality of values holds. *)
Theorem Less_Equals_trichotomy
    (Hrange : forall a b : Value,
        Compare a b = -1 \/ Compare a b = 0 \/ Compare a b = 1)
    (Hanti : forall a b : Value, Compare a b = - Compare b a)
    (Hval : forall a b : Value, Equals a b = true <-> Compare a b = 0)
    (A B : FieldList) :
  (FieldList_Less Compare A B = Returned true
   /\ FieldList_Equals Equals A B = Returned false
   /\ FieldList_Less Compare B A = Returned false)
  \/ (FieldList_Less Compare A B = Returned false
      /\ FieldList_Equals Equals A B = Returned true
      /\ FieldList_Less Compare B A = Returned false)
  \/ (FieldList_Less Compare A B = Returned false
      /\ FieldList_Equals Equals A B = Returned false
      /\ FieldList_Less Compare B A = Returned true).
Proof.
  rewrite !FieldList_Less_walk, FieldList_Equals_walk.
  rewrite (Compare_walk_opp _ Hanti B A).
  pose proof (Equals_walk_Compare_walk Compare Equals Hval A B) as HE.
  destruct ((len A =? len B)%nat && Equals_walk Equals A B) eqn:E.
  - assert (Compare_walk Compare A B = 0) as -> by now apply HE.
    right; left. auto.
  - assert (Compare_walk Compare A B <> 0) as Hne
      by (intros H0; apply HE in H0; discriminate).
    destruct (Compare_walk_range Hrange A B) as [-> | [H0 | ->]];
      [left | contradiction | right; right]; auto.
Qed.

End OrderFacts.

(** ** What Compare and Equals look at *)

Section PositionFacts.

Context {Value : Type}.
Variable Compare : Value -> Value -> Z.
Variable Equals : Value -> Value -> bool.

Local Abbreviation Field := (Field Value).
Local Abbreviation FieldList := (FieldList Value).

Lemma Compare_walk_zero_names (f : FieldList) :
  forall rhs : FieldList,
    Compare_walk Compare f rhs = 0 ->
    map Field_Name f = map Field_Name rhs.
Proof.
  induction f as [|a f IH]; intros [|b rhs]; cbn [Compare_walk map];
    try (intros; (reflexivity || discriminate)).
  destruct (strings_Compare (Field_Name a) (Field_Name b) =? 0) eqn:En.
  - apply Z.eqb_eq, strings_Compare_zero in En.
    destruct (Compare (Field_Value a) (Field_Value b) =? 0) eqn:Ev.
    + intros H. now rewrite En, (IH rhs H).
    + apply Z.eqb_neq in Ev. intros H. contradiction.
  - apply Z.eqb_neq in En. intros H. contradiction.
Qed.

Lemma Equals_walk_names (f : FieldList) :
  forall rhs : FieldList,
    len f = len rhs -> Equals_walk Equals f rhs = true ->
    map Field_Name f = map Field_Name rhs.
Proof.
  induction f as [|a f IH]; intros [|b rhs] Hlen; simpl in Hlen;
    try discriminate; cbn [Equals_walk map]; [reflexivity|].
  intros H. apply andb_prop in H. destruct H as [H Hrest].
  apply andb_prop in H. destruct H as [Hn _].
  apply String.eqb_eq in Hn. rewrite Hn, (IH rhs); auto.
Qed.

(** Whatever the comparison and the equality of values are, [Compare] returns
    0 and [Equals] returns true only for lists that have the same names in
    the same order (and so the same length). *)
Theorem same_names_when_equal (A B : FieldList) :
  FieldList_Compare Compare A B = Returned 0
  \/ FieldList_Equals Equals A B = Returned true ->
  map Field_Name A = map Field_Name B.
Proof.
  rewrite FieldList_Compare_walk, FieldList_Equals_walk.
  intros [H | H]; injection H as H.
  - now apply Compare_walk_zero_names.
  - apply andb_prop in H. destruct H as [Hl Hw].
    apply Nat.eqb_eq in Hl. now apply Equals_walk_names.
Qed.

Lemma Compare_walk_common_prefix (P : FieldList) :
  forall (P' A B : FieldList),
    Forall2 (fun p q => Field_Name p = Field_Name q
                        /\ Compare (Field_Value p) (Field_Value q) = 0) P P' ->
    Compare_walk Compare (P ++ A) (P' ++ B) = Compare_walk Compare A B.
Proof.
  induction P as [|p P IH]; intros P' A B H; inversion H as [|? q ? Q [Hn Hv] HQ];
    subst; [reflexivity|].
  cbn [app Compare_walk].
  rewrite Hn, (proj2 (strings_Compare_zero _ _) eq_refl), Hv. cbn [Z.eqb].
  now apply IH.
Qed.

(** [Compare] is decided at the first position where the two lists differ:
    after a stretch of positions with equal names and values that compare as
    0, a position with different names gives the comparison of the names, and
    a position with equal names and values that do not compare as 0 gives the
    comparison of the values; the fields after it, and how many there are,
    play no part. *)
Theorem Compare_first_difference
    (P P' : FieldList) (a b : Field) (A B : FieldList) :
  Forall2 (fun p q => Field_Name p = Field_Name q
                      /\ Compare (Field_Value p) (Field_Value q) = 0) P P' ->
  (Field_Name a <> Field_Name b ->
   FieldList_Compare Compare (P ++ a :: A) (P' ++ b :: B)
   = Returned (strings_Compare (Field_Name a) (Field_Name b)))
  /\ (Field_Name a = Field_Name b ->
      Compare (Field_Value a) (Field_Value b) <> 0 ->
      FieldList_Compare Compare (P ++ a :: A) (P' ++ b :: B)
      = Returned (Compare (Field_Value a) (Field_Value b))).
Proof.
  intros HP. rewrite FieldList_Compare_walk.
  rewrite (Compare_walk_common_prefix P P' _ _ HP). cbn [Compare_walk].
  split.
  - intros Hn.
    destruct (strings_Compare (Field_Name a) (Field_Name b) =? 0) eqn:E;
      [|reflexivity].
    apply Z.eqb_eq, strings_Compare_zero in E. contradiction.
  - intros Hn Hv.
    rewrite (proj2 (strings_Compare_zero _ _) Hn). cbn [Z.eqb].
    apply Z.eqb_neq in Hv. now rewrite Hv.
Qed.

(** [Equals] returns for every pair of lists: the test of the lengths keeps
    [rhs[i]] inside [rhs], so it never panics; and for lists of different
    lengths it returns false whatever the fields are. *)
Theorem Equals_returns (A B : FieldList) :
  exists r : bool,
    FieldList_Equals Equals A B = Returned r
    /\ (len A <> len B -> r = false).
Proof.
  rewrite FieldList_Equals_walk. eexists. split; [reflexivity|].
  intros H. apply Nat.eqb_neq in H. now rewrite H.
Qed.

Lemma Equals_walk_refl (Hrefl : forall a : Value, Equals a a = true)
    (f : FieldList) :
  Equals_walk Equals f f = true.
Proof.
  induction f as [|a f IH]; [reflexivity|].
  cbn [Equals_walk]. now rewrite String.eqb_refl, Hrefl, IH.
Qed.

Lemma Equals_walk_sym (Hsym : forall a b : Value, Equals a b = Equals b a)
    (f : FieldList) :
  forall rhs : FieldList, Equals_walk Equals f rhs = Equals_walk Equals rhs f.
Proof.
  induction f as [|a f IH]; intros [|b rhs]; try reflexivity.
  cbn [Equals_walk]. now rewrite String.eqb_sym, Hsym, IH.
Qed.

Lemma Equals_walk_trans
    (Htrans : forall a b c : Value,
        Equals a b = true -> Equals b c = true -> Equals a c = true)
    (f : FieldList) :
  forall g h : FieldList,
    len f = len g ->
    Equals_walk Equals f g = true -> Equals_walk Equals g h = true ->
    Equals_walk Equals f h = true.
Proof.
  induction f as [|a f IH]; intros [|b g] [|c h] Hlen; simpl in Hlen;
    try discriminate; try reflexivity.
  cbn [Equals_walk]. intros H1 H2.
  apply andb_prop in H1. destruct H1 as [H1 H1r].
  apply andb_prop in H1. destruct H1 as [H1n H1v].
  apply andb_prop in H2. destruct H2 as [H2 H2r].
  apply andb_prop in H2. destruct H2 as [H2n H2v].
  apply String.eqb_eq in H1n, H2n.
  rewrite H1n, H2n, String.eqb_refl, (Htrans _ _ _ H1v H2v).
  rewrite (IH g h); auto.
Qed.

(** [Equals] on field lists is an equivalence when the equality of values is
    one: every list equals itself, the two ways round give the same answer,
    and two lists each equal to a third equal one another. *)
Theorem Equals_equivalence
    (Hrefl : forall a : Value, Equals a a = true)
    (Hsym : forall a b : Value, Equals a b = Equals b a)
    (Htrans : forall a b c : Value,
        Equals a b = true -> Equals b c = true -> Equals a c = true) :
  (forall A : FieldList, FieldList_Equals Equals A A = Returned true)
  /\ (forall A B : FieldList,
        FieldList_Equals Equals A B = FieldList_Equals Equals B A)
  /\ (forall A B C : FieldList,
        FieldList_Equals Equals A B = Returned true ->
        FieldList_Equals Equals B C = Returned true ->
        FieldList_Equals Equals A C = Returned true).
Proof.
  split; [|split].
  - intros A. rewrite FieldList_Equals_walk, Nat.eqb_refl.
    now rewrite (Equals_walk_refl Hrefl).
  - intros A B. rewrite !FieldList_Equals_walk.
    now rewrite Nat.eqb_sym, (Equals_walk_sym Hsym).
  - intros A B C. rewrite !FieldList_Equals_walk.
    intros H1 H2. injection H1 as H1. injection H2 as H2.
    apply andb_prop in H1. destruct H1 as [L1 W1].
    apply andb_prop in H2. destruct H2 as [L2 W2].
    apply Nat.eqb_eq in L1, L2.
    rewrite (Equals_walk_trans Htrans A B C L1 W1 W2).
    rewrite L1, L2, Nat.eqb_refl. reflexivity.
Qed.

End PositionFacts.

(** ** Sort as a canonical form *)

Section CanonicalFacts.

Context {Value : Type}.
Variable Compare : Value -> Value -> Z.
Variable Equals : Value -> Value -> bool.

Local Abbreviation Field := (Field Value).
Local Abbreviation FieldList := (FieldList Value).

(** The two short cuts of [Sort], for fewer than two fields and for exactly
    two, give what the general path gives: [Sort] is [sort.SliceStable] by
    [Name] on lists of every size. *)
Theorem Sort_short_cuts_agree (l : FieldList) :
  FieldList_Sort l = sort_SliceStable Name_less l.
Proof.
  destruct l as [|f0 [|f1 [|f2 l]]]; try reflexivity.
  rewrite FieldList_Sort_two.
  unfold sort_SliceStable, insertionSort, Name_less. simpl.
  destruct (String.ltb (Field_Name f1) (Field_Name f0)); reflexivity.
Qed.

Lemma fields_named_Permutation (n : string) (A B : list Field) :
  Permutation A B -> Permutation (fields_named n A) (fields_named n B).
Proof.
  unfold fields_named.
  induction 1 as [|x A B _ IH|x y A|A B C _ IH1 _ IH2]; simpl.
  - constructor.
  - destruct (has_Name n x); [now constructor | assumption].
  - destruct (has_Name n x), (has_Name n y);
      (apply perm_swap || reflexivity).
  - now transitivity (filter (has_Name n) B).
Qed.

Lemma fields_named_absent (n : string) (A : list Field) :
  ~ In n (map Field_Name A) -> fields_named n A = [].
Proof.
  unfold fields_named, has_Name.
  induction A as [|x A IH]; simpl; intros H; [reflexivity|].
  destruct (String.eqb_spec (Field_Name x) n) as [E|E].
  - exfalso. apply H. now left.
  - apply IH. intros Hin. apply H. now right.
Qed.

Lemma fields_named_distinct (n : string) (A : list Field) :
  NoDup (map Field_Name A) -> (len (fields_named n A) <= 1)%nat.
Proof.
  induction A as [|x A IH]; simpl; intros H; [lia|].
  inversion H as [|? ? Hx HA]; subst.
  unfold fields_named in *. cbn [filter]. unfold has_Name at 1.
  destruct (String.eqb_spec (Field_Name x) n) as [E|E].
  - subst n. fold (fields_named (Field_Name x) A).
    rewrite (fields_named_absent _ _ Hx). simpl. lia.
  - now apply IH.
Qed.

Lemma Permutation_short {A : Type} (l1 l2 : list A) :
  (len l1 <= 1)%nat -> Permutation l1 l2 -> l1 = l2.
Proof.
  destruct l1 as [|x [|y l1]]; simpl; intros Hlen Hp; try lia.
  - symmetry. now apply Permutation_nil.
  - symmetry. now apply Permutation_length_1_inv.
Qed.

Lemma FieldList_Sort_canonical (A B : FieldList) :
  NoDup (map Field_Name A) -> Permutation A B ->
  FieldList_Sort A = FieldList_Sort B.
Proof.
  intros Hnd Hp.
  apply sorted_stable_unique; try apply FieldList_Sort_sorted.
  intros n. rewrite !FieldList_Sort_fields_named.
  apply Permutation_short;
    [now apply fields_named_distinct | now apply fields_named_Permutation].
Qed.

(** [Sort] gives a canonical form for lists whose names are all different, as
    a FieldList is expected to be: two such lists with the same fields in
    any order are the same list after [Sort], so that [Compare] on the sorted
    lists returns 0 and [Equals] returns true (for a comparison that gives 0
    and an equality that holds on a value and itself). *)
Theorem Sort_canonical
    (Hc : forall a : Value, Compare a a = 0)
    (He : forall a : Value, Equals a a = true)
    (A B : FieldList) :
  NoDup (map Field_Name A) -> Permutation A B ->
  FieldList_Sort A = FieldList_Sort B
  /\ FieldList_Compare Compare (FieldList_Sort A) (FieldList_Sort B)
     = Returned 0
  /\ FieldList_Equals Equals (FieldList_Sort A) (FieldList_Sort B)
     = Returned true.
Proof.
  intros Hnd Hp. rewrite (FieldList_Sort_canonical A B Hnd Hp).
  split; [reflexivity|]. split.
  - rewrite FieldList_Compare_walk. f_equal. now apply Compare_walk_refl.
  - rewrite FieldList_Equals_walk, Nat.eqb_refl.
    now rewrite (Equals_walk_refl Equals He).
Qed.

End CanonicalFacts.

(** ** What the JSON helpers read and write *)

Section JSONOrderFacts.

Context {Value : Type}.
Variable codec : Codec Value.

Local Abbreviation Field := (Field Value).
Local Abbreviation FieldList := (FieldList Value).

(** The field that a raw key and a raw value decode to. *)
Local Abbreviation decodes_to :=
  (fun (kv : bytes * bytes) (f : Field) =>
     UnmarshalString codec (fst kv) = (Field_Name f, None)
     /\ exists x : any codec,
          UnmarshalInterface codec (snd kv) = (x, None)
          /\ Field_Value f = NewValueInterface codec x).

Lemma FromJSON_loop_arrival_order (kvs : list (bytes * bytes)) :
  forall (L : FieldList) (parser : FastObjParser codec),
    reads codec parser (object_tokens kvs) ->
    Forall2 decodes_to kvs L ->
    forall (budget : nat) (fields : FieldList),
      (len kvs < budget)%nat ->
      FromJSON_loop codec budget parser fields = Returned (fields ++ L, None).
Proof.
  induction kvs as [|kv kvs IH]; intros L parser Hr HL budget fields Hb;
    inversion HL as [|? f ? L' [Hk (x & Hx & Hv)] HL']; subst.
  - inversion Hr as [p raw p' HP|]; subst.
    destruct budget as [|budget]; [simpl in Hb; lia|].
    simpl. unfold FromJSON_body. rewrite HP, app_nil_r. reflexivity.
  - cbn [object_tokens flat_map app] in Hr.
    inversion Hr as [|p raw p1 toks HP1 Hr1]; subst.
    inversion Hr1 as [|p raw p2 toks HP2 Hr2]; subst.
    destruct budget as [|budget]; [simpl in Hb; lia|].
    cbn [FromJSON_loop]. unfold FromJSON_body.
    rewrite HP1, HP2, Hk, Hx.
    rewrite (IH L' p2 Hr2 HL') by (simpl in Hb; lia).
    rewrite <- app_assoc. cbn [app].
    destruct f as [n v]. cbn [Field_Name Field_Value] in *. now subst v.
Qed.

(** [FieldListFromJSON] keeps the pairs in the order of the input and keeps
    every one of them: when the parser hands out the raw keys and values
    [kvs] and then the end of input, and each pair decodes, the result is the
    list of the decoded fields, pair by pair, with a nil error.  A name that
    comes twice gives two fields. *)
Theorem FromJSON_arrival_order
    (input : bytes) (kvs : list (bytes * bytes)) (L : FieldList)
    (budget : nat) :
  reads codec (NewFastObjParser codec input) (object_tokens kvs) ->
  Forall2 decodes_to kvs L ->
  (len kvs < budget)%nat ->
  FieldListFromJSON codec budget input = Returned (L, None).
Proof.
  intros Hr HL Hb. unfold FieldListFromJSON.
  now rewrite (FromJSON_loop_arrival_order kvs L _ Hr HL budget [] Hb).
Qed.

Lemma FromJSON_loop_dangling_key (kvs : list (bytes * bytes)) :
  forall (L : FieldList) (key : bytes) (parser : FastObjParser codec),
    reads codec parser (object_tokens kvs ++ [key]) ->
    Forall2 decodes_to kvs L ->
    forall (budget : nat) (fields : FieldList),
      (len kvs < budget)%nat ->
      FromJSON_loop codec budget parser fields
      = Returned ([], Some (error_of "unexpected EOF")).
Proof.
  induction kvs as [|kv kvs IH]; intros L key parser Hr HL budget fields Hb;
    inversion HL as [|? f ? L' [Hk (x & Hx & Hv)] HL']; subst.
  - cbn [object_tokens flat_map app] in Hr.
    inversion Hr as [|p raw p1 toks HP1 Hr1]; subst.
    inversion Hr1 as [p raw p2 HP2|]; subst.
    destruct budget as [|budget]; [simpl in Hb; lia|].
    simpl. unfold FromJSON_body. rewrite HP1, HP2. reflexivity.
  - cbn [object_tokens flat_map app] in Hr.
    inversion Hr as [|p raw p1 toks HP1 Hr1]; subst.
    inversion Hr1 as [|p raw p2 toks HP2 Hr2]; subst.
    destruct budget as [|budget]; [simpl in Hb; lia|].
    cbn [FromJSON_loop]. unfold FromJSON_body.
    rewrite HP1, HP2, Hk, Hx.
    apply (IH L' key p2 Hr2 HL'). simpl in Hb. lia.
Qed.

(** A key that no value follows makes the whole call fail, however many
    pairs were read before it: when the parser hands out the pairs [kvs],
    which decode, then one more raw key and then the end of input,
    [FieldListFromJSON] returns the nil FieldList and the error
    "unexpected EOF"; the fields decoded so far are dropped. *)
Theorem FromJSON_dangling_key
    (input : bytes) (kvs : list (bytes * bytes)) (key : bytes)
    (L : FieldList) (budget : nat) :
  reads codec (NewFastObjParser codec input) (object_tokens kvs ++ [key]) ->
  Forall2 decodes_to kvs L ->
  (len kvs < budget)%nat ->
  FieldListFromJSON codec budget input
  = Returned ([], Some (error_of "unexpected EOF")).
Proof.
  intros Hr HL Hb. unfold FieldListFromJSON.
  exact (FromJSON_loop_dangling_key kvs L key _ Hr HL budget [] Hb).
Qed.

Lemma ToJSON_range_marshalled (rest : list Field) :
  forall (kvs : list (bytes * bytes)) (pre : list Field) (w : JSONBuilder),
    Forall2 (marshalled codec) rest kvs ->
    ToJSON_range codec (pre ++ rest) (len pre) rest w
    = (w ++ members_text kvs ++ ["}"%char], None).
Proof.
  induction rest as [|f rest IH]; intros kvs pre w H;
    inversion H as [|? [k v] ? kvs' [Hk Hv] Hrest]; subst; [reflexivity|].
  cbn [fst snd] in Hk, Hv.
  cbn [ToJSON_range]. unfold WriteJSON, WriteByte. rewrite Hk, Hv.
  replace (pre ++ f :: rest) with ((pre ++ [f]) ++ rest)
    by now rewrite <- app_assoc.
  replace (len pre + 1)%nat with (len (pre ++ [f]))
    by now rewrite length_app.
  cbn [members_text].
  destruct Hrest as [|f' kv' rest' kvs'' Hf' Hrest'];
    match goal with
    | |- context [if ?c then _ else _] => destruct c eqn:Ec
    end;
    try (apply Z.ltb_lt in Ec; rewrite !length_app in Ec; simpl in Ec; lia);
    try (apply Z.ltb_ge in Ec; rewrite !length_app in Ec; simpl in Ec; lia).
  - rewrite (IH [] (pre ++ [f])) by constructor.
    repeat first [rewrite <- app_assoc | rewrite app_nil_r | progress simpl].
    reflexivity.
  - rewrite (IH (kv' :: kvs'') (pre ++ [f])) by now constructor.
    repeat first [rewrite <- app_assoc | progress simpl].
    reflexivity.
Qed.

(** What [FieldListToJSON] writes.  When every name and value of the list can
    be written, it returns a nil error and has appended to the builder an
    opening brace, the members in the order of the list, each as raw key,
    colon, raw value, with a comma between two members and none after the
    last, and a closing brace; and whenever it returns a nil error this is
    what happened. *)
Theorem ToJSON_object_text (L : FieldList) (w : JSONBuilder) :
  (forall kvs : list (bytes * bytes),
     Forall2 (marshalled codec) L kvs ->
     FieldListToJSON codec L w = (w ++ object_text kvs, None))
  /\ (forall w' : JSONBuilder,
        FieldListToJSON codec L w = (w', None) ->
        exists kvs : list (bytes * bytes),
          Forall2 (marshalled codec) L kvs /\ w' = w ++ object_text kvs).
Proof.
  unfold FieldListToJSON, WriteByte, object_text. split.
  - intros kvs H.
    rewrite (ToJSON_range_marshalled L kvs [] _ H).
    now rewrite <- app_assoc.
  - intros w' H. apply (ToJSON_range_text codec L []) in H.
    destruct H as (kvs & Hkvs & ->). exists kvs. split; [assumption|].
    now rewrite <- app_assoc.
Qed.

Lemma ToJSON_range_error (pre : list Field) :
  forall (kvs : list (bytes * bytes)) (done : list Field) (f : Field)
         (post : list Field) (w : JSONBuilder) (e : error),
    Forall2 (marshalled codec) pre kvs ->
    (exists raw, Marshal codec (any_string codec (Field_Name f))
                 = (raw, Some e))
    \/ (exists k raw,
          Marshal codec (any_string codec (Field_Name f)) = (k, None)
          /\ Marshal codec (Unstructured codec (Field_Value f))
             = (raw, Some e)) ->
    snd (ToJSON_range codec (done ++ pre ++ f :: post) (len done)
           (pre ++ f :: post) w)
    = Some e.
Proof.
  induction pre as [|p pre IH]; intros kvs done f post w e Hpre Hf;
    inversion Hpre as [|? [k v] ? kvs' [Hk Hv] Hpre']; subst.
  - cbn [app ToJSON_range]. unfold WriteJSON.
    destruct Hf as [[raw Hn] | (k & raw & Hn & Hv)].
    + now rewrite Hn.
    + now rewrite Hn, Hv.
  - cbn [fst snd] in Hk, Hv.
    cbn [app ToJSON_range]. unfold WriteJSON. rewrite Hk, Hv.
    replace (done ++ p :: pre ++ f :: post)
      with ((done ++ [p]) ++ pre ++ f :: post)
      by now rewrite <- app_assoc.
    replace (len done + 1)%nat with (len (done ++ [p]))
      by now rewrite length_app.
    now apply (IH kvs').
Qed.

(** [FieldListToJSON] returns the error of the builder as it is: when the
    fields before [f] can be written and the builder fails on the name of
    [f], or on its value after writing its name, the error returned is the
    builder's, whatever fields come after [f]. *)
Theorem ToJSON_first_error
    (pre : list Field) (kvs : list (bytes * bytes)) (f : Field)
    (post : list Field) (w : JSONBuilder) (e : error) :
  Forall2 (marshalled codec) pre kvs ->
  (exists raw, Marshal codec (any_string codec (Field_Name f))
               = (raw, Some e))
  \/ (exists k raw,
        Marshal codec (any_string codec (Field_Name f)) = (k, None)
        /\ Marshal codec (Unstructured codec (Field_Value f))
           = (raw, Some e)) ->
  snd (FieldListToJSON codec (pre ++ f :: post) w) = Some e.
Proof.
  intros Hpre Hf. unfold FieldListToJSON.
  exact (ToJSON_range_error pre kvs [] f post _ e Hpre Hf).
Qed.

End JSONOrderFacts.

(** ** The further properties on concrete inputs *)

Lemma IntCompare_range (a b : Z) :
  IntCompare a b = -1 \/ IntCompare a b = 0 \/ IntCompare a b = 1.
Proof.
  unfold IntCompare. destruct (a >? b); [auto|]. destruct (a <? b); auto.
Qed.

Lemma IntCompare_trans (a b c : Z) :
  IntCompare a b = -1 -> IntCompare b c = -1 -> IntCompare a c = -1.
Proof.
  unfold IntCompare.
  destruct (Z.gtb_spec a b), (Z.ltb_spec a b), (Z.gtb_spec b c),
    (Z.ltb_spec b c), (Z.gtb_spec a c), (Z.ltb_spec a c); lia.
Qed.

Lemma IntCompare_zero (a b c : Z) :
  IntCompare a b = 0 -> IntCompare a c = IntCompare b c.
Proof.
  unfold IntCompare.
  destruct (Z.gtb_spec a b), (Z.ltb_spec a b); try lia.
  intros _. now replace b with a by lia.
Qed.

Lemma IntEquals_trans (a b c : Z) :
  IntEquals a b = true -> IntEquals b c = true -> IntEquals a c = true.
Proof. unfold IntEquals. rewrite !Z.eqb_eq. congruence. Qed.

Lemma Compare_range_witness :
  FieldList_Compare IntCompare [mkField "a" 1] [mkField "a" 5] = Returned (-1)
  \/ FieldList_Compare IntCompare [mkField "a" 1] [mkField "a" 5] = Returned 0
  \/ FieldList_Compare IntCompare [mkField "a" 1] [mkField "a" 5] = Returned 1.
Proof. apply (Compare_range IntCompare IntCompare_range). Defined.

Lemma Less_strict_order_witness :
  FieldList_Less IntCompare [mkField "a" 1] [mkField "a" 1] = Returned false
  /\ FieldList_Less IntCompare [mkField "b" 1] [mkField "a" 2; mkField "c" 0]
     = Returned false
  /\ FieldList_Less IntCompare [mkField "a" 1] [mkField "b" 1]
     = Returned true.
Proof.
  pose proof (Less_strict_order IntCompare
                IntCompare_opp IntCompare_trans IntCompare_zero)
    as (Hirr & Hasym & Htr).
  split; [apply Hirr|]. split.
  - apply Hasym. reflexivity.
  - apply (Htr _ [mkField "a" 2; mkField "c" 0]); reflexivity.
Defined.

Lemma Less_Equals_trichotomy_witness :
  (FieldList_Less IntCompare [mkField "a" 1] [mkField "a" 1; mkField "b" 2]
   = Returned true
   /\ FieldList_Equals IntEquals [mkField "a" 1] [mkField "a" 1; mkField "b" 2]
      = Returned false
   /\ FieldList_Less IntCompare [mkField "a" 1; mkField "b" 2] [mkField "a" 1]
      = Returned false)
  \/ (FieldList_Less IntCompare [mkField "a" 1] [mkField "a" 1; mkField "b" 2]
      = Returned false
      /\ FieldList_Equals IntEquals
           [mkField "a" 1] [mkField "a" 1; mkField "b" 2]
         = Returned true
      /\ FieldList_Less IntCompare
           [mkField "a" 1; mkField "b" 2] [mkField "a" 1]
         = Returned false)
  \/ (FieldList_Less IntCompare [mkField "a" 1] [mkField "a" 1; mkField "b" 2]
      = Returned false
      /\ FieldList_Equals IntEquals
           [mkField "a" 1] [mkField "a" 1; mkField "b" 2]
         = Returned false
      /\ FieldList_Less IntCompare
           [mkField "a" 1; mkField "b" 2] [mkField "a" 1]
         = Returned true).
Proof.
  apply (Less_Equals_trichotomy IntCompare IntEquals
           IntCompare_range IntCompare_opp IntEquals_IntCompare).
Defined.

Lemma same_names_when_equal_witness :
  map Field_Name [mkField "a" 1; mkField "b" 2]
  = map Field_Name [mkField "a" 1; mkField "b" 2].
Proof.
  apply (same_names_when_equal IntCompare IntEquals).
  left. reflexivity.
Defined.

Lemma Compare_first_difference_witness :
  FieldList_Compare IntCompare
    [mkField "a" 1; mkField "b" 2; mkField "z" 0]
    [mkField "a" 1; mkField "c" 2]
  = Returned (strings_Compare "b" "c")
  /\ FieldList_Compare IntCompare
       [mkField "a" 1; mkField "b" 7]
       [mkField "a" 1; mkField "b" 2; mkField "c" 3]
     = Returned (IntCompare 7 2).
Proof.
  assert (Forall2 (fun p q : Field Z =>
                     Field_Name p = Field_Name q
                     /\ IntCompare (Field_Value p) (Field_Value q) = 0)
            [mkField "a" 1] [mkField "a" 1]) as HP
    by (repeat constructor).
  split.
  - apply (proj1 (Compare_first_difference IntCompare
                    [mkField "a" 1] [mkField "a" 1]
                    (mkField "b" 2) (mkField "c" 2) [mkField "z" 0] [] HP)).
    discriminate.
  - apply (proj2 (Compare_first_difference IntCompare
                    [mkField "a" 1] [mkField "a" 1]
                    (mkField "b" 7) (mkField "b" 2) [] [mkField "c" 3] HP)).
    + reflexivity.
    + discriminate.
Defined.

Lemma Equals_returns_witness :
  exists r : bool,
    FieldList_Equals IntEquals [mkField "a" 1] [mkField "a" 1; mkField "b" 2]
    = Returned r
    /\ r = false.
Proof.
  destruct (Equals_returns IntEquals
              [mkField "a" 1] [mkField "a" 1; mkField "b" 2])
    as (r & Hr & Hlen).
  exists r. split; [exact Hr|]. apply Hlen. simpl. lia.
Defined.

Lemma Equals_equivalence_witness :
  FieldList_Equals IntEquals [mkField "a" 1] [mkField "a" 1] = Returned true
  /\ FieldList_Equals IntEquals [mkField "a" 1] [mkField "b" 1]
     = FieldList_Equals IntEquals [mkField "b" 1] [mkField "a" 1]
  /\ FieldList_Equals IntEquals [mkField "a" (1 + 1)] [mkField "a" (2 + 0)]
     = Returned true.
Proof.
  pose proof (Equals_equivalence IntEquals Z.eqb_refl Z.eqb_sym IntEquals_trans)
    as (Hrefl & Hsym & Htrans).
  split; [apply Hrefl|]. split; [apply Hsym|].
  apply (Htrans _ [mkField "a" 2]); reflexivity.
Defined.

Lemma Sort_canonical_witness :
  FieldList_Sort [mkField "b" 2; mkField "c" 3; mkField "a" 1]
  = FieldList_Sort [mkField "c" 3; mkField "a" 1; mkField "b" 2]
  /\ FieldList_Compare IntCompare
       (FieldList_Sort [mkField "b" 2; mkField "c" 3; mkField "a" 1])
       (FieldList_Sort [mkField "c" 3; mkField "a" 1; mkField "b" 2])
     = Returned 0
  /\ FieldList_Equals IntEquals
       (FieldList_Sort [mkField "b" 2; mkField "c" 3; mkField "a" 1])
       (FieldList_Sort [mkField "c" 3; mkField "a" 1; mkField "b" 2])
     = Returned true.
Proof.
  apply (Sort_canonical IntCompare IntEquals IntCompare_refl Z.eqb_refl).
  - simpl. repeat constructor; simpl; intuition discriminate.
  - apply (Permutation_cons_append
             [mkField "c" 3; mkField "a" 1] (mkField "b" 2)).
Defined.

Lemma FromJSON_arrival_order_witness :
  FieldListFromJSON PlainCodec 3
    ["{"; quote; "a"; quote; ":"; quote; "x"; quote; ",";
     quote; "a"; quote; ":"; quote; "y"; quote; "}"]%char
  = Returned ([mkField "a" "x"%string; mkField "a" "y"%string], None).
Proof.
  apply (FromJSON_arrival_order PlainCodec _
           [([quote; "a"; quote], [quote; "x"; quote]);
            ([quote; "a"; quote], [quote; "y"; quote])]%char).
  - repeat (eapply reads_token; [reflexivity|]).
    eapply reads_EOF. reflexivity.
  - repeat (constructor;
            [split; [reflexivity | eexists; split; reflexivity]|]).
    constructor.
  - simpl. lia.
Defined.

Lemma FromJSON_dangling_key_witness :
  FieldListFromJSON PlainCodec 2
    ["{"; quote; "a"; quote; ":"; quote; "x"; quote; ",";
     quote; "b"; quote; "}"]%char
  = Returned ([], Some (error_of "unexpected EOF")).
Proof.
  apply (FromJSON_dangling_key PlainCodec _
           [([quote; "a"; quote], [quote; "x"; quote])]%char
           [quote; "b"; quote]%char
           [mkField "a" "x"%string]).
  - repeat (eapply reads_token; [reflexivity|]).
    eapply reads_EOF. reflexivity.
  - repeat (constructor;
            [split; [reflexivity | eexists; split; reflexivity]|]).
    constructor.
  - simpl. lia.
Defined.

Lemma ToJSON_object_text_witness :
  FieldListToJSON PlainCodec
    [mkField "b" "x"%string; mkField "a" "y"%string] ["#"%char]
  = ("#"%char
       :: object_text [([quote; "b"; quote], [quote; "x"; quote]);
                       ([quote; "a"; quote], [quote; "y"; quote])]%char,
     None).
Proof.
  apply (proj1 (ToJSON_object_text PlainCodec
                  [mkField "b" "x"%string; mkField "a" "y"%string]
                  ["#"%char])).
  repeat (constructor; [split; reflexivity|]). constructor.
Defined.

Lemma ToJSON_first_error_witness :
  snd (FieldListToJSON PlainCodec
         [mkField "a" "x"%string; mkField "b" "y:z"%string;
          mkField "c" "w"%string] [])
  = Some (error_of "unsupported character").
Proof.
  apply (ToJSON_first_error PlainCodec
           [mkField "a" "x"%string]
           [([quote; "a"; quote], [quote; "x"; quote])]%char
           (mkField "b" "y:z"%string) [mkField "c" "w"%string] []).
  - repeat (constructor; [split; reflexivity|]). constructor.
  - right. exists [quote; "b"; quote]%char, []. split; reflexivity.
Defined.
